(** * Client synchronisation of the multiplayer Pong prototype

    A shallow embedding of [client/src/App.jsx]: the snapshot normalisation
    [normaliseState], the web-socket message listener, the input sender
    (interval timer, [updateInput], [resendCurrentInput]), the keyboard
    handler and the role label, with the properties the specification
    states about them. *)

From Stdlib Require Import List String Ascii Bool NArith PrimFloat.
From Stdlib Require Import Decimal DecimalString.
From Stdlib Require Import PeanoNat Lia.
Import ListNotations.

Local Open Scope string_scope.
Local Open Scope list_scope.

(** ** JavaScript values

    The values the client handles are [undefined] and what [JSON.parse]
    produces: [null], booleans, numbers (IEEE 754 binary64, the kernel's
    floats), strings (a character of the model stands for a code unit),
    arrays and plain objects.  An object is the list of its own properties
    in insertion order; reading takes the first binding of a key. *)

#[warnings="-register-all"]
Inductive JsVal : Type :=
| VUndef
| VNull
| VBool (b : bool)
| VNum (f : float)
| VStr (s : string)
| VArr (elems : list JsVal)
| VObj (fields : list (string * JsVal)).

(** Abrupt completions: the two exceptions this code can meet. *)
Inductive JsError : Type :=
| TypeError     (* property read on [null] or [undefined] *)
| SyntaxError.  (* [JSON.parse] on a text that is not JSON *)

Inductive Completion (A : Type) : Type :=
| Normal (a : A)
| Throw (e : JsError).

Arguments Normal {A} a.
Arguments Throw {A} e.

Definition bind {A B : Type} (c : Completion A) (k : A -> Completion B)
  : Completion B :=
  match c with
  | Normal a => k a
  | Throw e => Throw e
  end.

Declare Scope js_scope.
Delimit Scope js_scope with js.
Notation "x <- c ;; k" := (bind c (fun x => k))
  (at level 61, c at next level, right associativity) : js_scope.
Local Open Scope js_scope.

(** [v == null], true of [null] and [undefined] only. *)
Definition is_nullish (v : JsVal) : bool :=
  match v with
  | VUndef | VNull => true
  | _ => false
  end.

(** [Number::toString] on the non-negative integer literals used as keys. *)
Definition Number_toString (n : N) : string :=
  NilEmpty.string_of_uint (N.to_uint n).

(** A number used as a property key is converted to its string. *)
Definition ToPropertyKey (n : N) : string := Number_toString n.

Fixpoint own_prop (k : string) (fields : list (string * JsVal)) : JsVal :=
  match fields with
  | [] => VUndef
  | (k', v) :: rest => if String.eqb k k' then v else own_prop k rest
  end.

(** The element of an array whose index prints as [k]. *)
Fixpoint elem_by_key (k : string) (i : N) (elems : list JsVal) : JsVal :=
  match elems with
  | [] => VUndef
  | v :: rest =>
      if String.eqb k (Number_toString i) then v
      else elem_by_key k (N.succ i) rest
  end.

(** The code unit of a string whose index prints as [k]. *)
Fixpoint char_by_key (k : string) (i : N) (s : string) : JsVal :=
  match s with
  | EmptyString => VUndef
  | String c rest =>
      if String.eqb k (Number_toString i) then VStr (String c EmptyString)
      else char_by_key k (N.succ i) rest
  end.

Fixpoint float_of_nat (n : nat) : float :=
  match n with
  | O => 0%float
  | S m => (float_of_nat m + 1)%float
  end.

(** The value of property [k] of a value that is neither [null] nor
    [undefined].  Methods inherited from the prototypes are functions, which
    are outside [JsVal]; no key this program reads names one. *)
Definition prop_value (v : JsVal) (k : string) : JsVal :=
  match v with
  | VObj fields => own_prop k fields
  | VArr elems =>
      if String.eqb k "length" then VNum (float_of_nat (List.length elems))
      else elem_by_key k 0%N elems
  | VStr s =>
      if String.eqb k "length" then VNum (float_of_nat (String.length s))
      else char_by_key k 0%N s
  | _ => VUndef
  end.

(** [v[k]]: a [TypeError] on [null] and [undefined]. *)
Definition get (v : JsVal) (k : string) : Completion JsVal :=
  if is_nullish v then Throw TypeError else Normal (prop_value v k).

(** [e.k] and [e?.k] on an expression that may itself throw. *)
Definition member (e : Completion JsVal) (k : string) : Completion JsVal :=
  v <- e ;; get v k.

Definition opt_member (e : Completion JsVal) (k : string)
  : Completion JsVal :=
  v <- e ;; if is_nullish v then Normal VUndef else get v k.

(** [e ?? d]: the right operand is evaluated only when it is needed. *)
Definition coalesce (e d : Completion JsVal) : Completion JsVal :=
  v <- e ;; if is_nullish v then d else Normal v.

Notation "e @. k" := (member e k) (at level 40, left associativity) : js_scope.
Notation "e @?. k" := (opt_member e k)
  (at level 40, left associativity) : js_scope.
Notation "e ?? d" := (coalesce e d)
  (at level 45, right associativity) : js_scope.

(** Object literals: a property name is a numeric literal or an identifier
    or string; either way the key of the property is a string. *)
Inductive PropName : Type :=
| PNum (n : N)
| PStr (s : string).

Definition prop_key (p : PropName) : string :=
  match p with
  | PNum n => ToPropertyKey n
  | PStr s => s
  end.

Definition object_literal (props : list (PropName * JsVal)) : JsVal :=
  VObj (map (fun p => (prop_key (fst p), snd p)) props).

(** ** Constants *)

Definition INPUT_INTERVAL : float := (1000 / 30)%float.

Definition defaultState : JsVal :=
  object_literal
    [ (PStr "players",
        object_literal
          [ (PNum 1, object_literal [(PStr "y", VNum ((500 - 80) / 2)%float)]);
            (PNum 2, object_literal [(PStr "y", VNum ((500 - 80) / 2)%float)]) ]);
      (PStr "ball",
        object_literal [ (PStr "x", VNum (800 / 2)%float);
                         (PStr "y", VNum (500 / 2)%float) ]);
      (PStr "score",
        object_literal [ (PNum 1, VNum 0%float); (PNum 2, VNum 0%float) ]);
      (PStr "bounds",
        object_literal [ (PStr "width", VNum 800%float);
                         (PStr "height", VNum 500%float) ]);
      (PStr "paddle",
        object_literal [ (PStr "w", VNum 12%float); (PStr "h", VNum 80%float) ]);
      (PStr "ballRadius", VNum 8%float) ].

(** ** normaliseState *)

Module Normalise.

(** The closure [resolvePlayerY]; [players] is the variable it captures. *)
Definition resolvePlayerY (players : JsVal) (key : N) : Completion JsVal :=
  probe <- Normal players @. ToPropertyKey key @?. "y" ;;
  if negb (is_nullish probe) then Normal players @. ToPropertyKey key @. "y"
  else
    let asString := Number_toString key in
    probe' <- Normal players @. asString @?. "y" ;;
    if negb (is_nullish probe') then Normal players @. asString @. "y"
    else Normal defaultState @. "players" @. ToPropertyKey key @. "y".

(** The closure [resolveScore]; [score] is the variable it captures. *)
Definition resolveScore (score : JsVal) (key : N) : Completion JsVal :=
  probe <- Normal score @. ToPropertyKey key ;;
  if negb (is_nullish probe) then Normal score @. ToPropertyKey key
  else
    let asString := Number_toString key in
    probe' <- Normal score @. asString ;;
    if negb (is_nullish probe') then Normal score @. asString
    else Normal defaultState @. "score" @. ToPropertyKey key.

Definition normaliseState (incoming : JsVal) : Completion JsVal :=
  source <- Normal incoming ?? Normal (object_literal []) ;;
  players <- Normal source @. "players" ?? Normal (object_literal []) ;;
  score <- Normal source @. "score" ?? Normal (object_literal []) ;;
  p1 <- resolvePlayerY players 1 ;;
  p2 <- resolvePlayerY players 2 ;;
  bx <- Normal source @. "ball" @?. "x" ?? Normal defaultState @. "ball" @. "x" ;;
  by_ <- Normal source @. "ball" @?. "y" ?? Normal defaultState @. "ball" @. "y" ;;
  s1 <- resolveScore score 1 ;;
  s2 <- resolveScore score 2 ;;
  bw <- Normal source @. "bounds" @?. "width"
          ?? Normal defaultState @. "bounds" @. "width" ;;
  bh <- Normal source @. "bounds" @?. "height"
          ?? Normal defaultState @. "bounds" @. "height" ;;
  pw <- Normal source @. "paddle" @?. "w" ?? Normal defaultState @. "paddle" @. "w" ;;
  ph <- Normal source @. "paddle" @?. "h" ?? Normal defaultState @. "paddle" @. "h" ;;
  br <- Normal source @. "ballRadius" ?? Normal defaultState @. "ballRadius" ;;
  Normal
    (object_literal
       [ (PStr "players",
           object_literal [ (PNum 1, object_literal [(PStr "y", p1)]);
                            (PNum 2, object_literal [(PStr "y", p2)]) ]);
         (PStr "ball", object_literal [(PStr "x", bx); (PStr "y", by_)]);
         (PStr "score", object_literal [(PNum 1, s1); (PNum 2, s2)]);
         (PStr "bounds", object_literal [(PStr "width", bw); (PStr "height", bh)]);
         (PStr "paddle", object_literal [(PStr "w", pw); (PStr "h", ph)]);
         (PStr "ballRadius", br) ]).

End Normalise.
Import Normalise.

(** ** Reading a snapshot along a path

    [path_get v [k1; ...; kn]] is [v?.k1?. ... ?.kn]: the value found under
    the path, [undefined] as soon as a step meets [null] or [undefined]. *)

Fixpoint path_get (v : JsVal) (path : list string) : JsVal :=
  match path with
  | [] => v
  | k :: rest => if is_nullish v then VUndef else path_get (prop_value v k) rest
  end.

(** The snapshot's value when it is present and not [null], else the default. *)
Definition fill (v d : JsVal) : JsVal := if is_nullish v then d else v.

(** The eleven leaves of the state shape, each with its path. *)
Definition leaf_paths : list (list string) :=
  [ ["players"; "1"; "y"]; ["players"; "2"; "y"];
    ["ball"; "x"]; ["ball"; "y"];
    ["score"; "1"]; ["score"; "2"];
    ["bounds"; "width"]; ["bounds"; "height"];
    ["paddle"; "w"]; ["paddle"; "h"];
    ["ballRadius"] ].

(** Every leaf of the state shape holds a value other than [null] and
    [undefined]. *)
Definition fully_populated (st : JsVal) : bool :=
  forallb (fun p => negb (is_nullish (path_get st p))) leaf_paths.

(** The state object with the given leaves, as [normaliseState] builds it. *)
Definition state_of_leaves (p1 p2 bx by_ s1 s2 bw bh pw ph br : JsVal) : JsVal :=
  object_literal
    [ (PStr "players",
        object_literal [ (PNum 1, object_literal [(PStr "y", p1)]);
                         (PNum 2, object_literal [(PStr "y", p2)]) ]);
      (PStr "ball", object_literal [(PStr "x", bx); (PStr "y", by_)]);
      (PStr "score", object_literal [(PNum 1, s1); (PNum 2, s2)]);
      (PStr "bounds", object_literal [(PStr "width", bw); (PStr "height", bh)]);
      (PStr "paddle", object_literal [(PStr "w", pw); (PStr "h", ph)]);
      (PStr "ballRadius", br) ].

(** What [normaliseState] computes, leaf by leaf: the snapshot's value under
    the leaf's path, filled from [defaultState] under the same path. *)
Definition filled_leaf (incoming : JsVal) (path : list string) : JsVal :=
  fill (path_get incoming path) (path_get defaultState path).

Definition filled_state (x : JsVal) : JsVal :=
  state_of_leaves
    (filled_leaf x ["players"; "1"; "y"]) (filled_leaf x ["players"; "2"; "y"])
    (filled_leaf x ["ball"; "x"]) (filled_leaf x ["ball"; "y"])
    (filled_leaf x ["score"; "1"]) (filled_leaf x ["score"; "2"])
    (filled_leaf x ["bounds"; "width"]) (filled_leaf x ["bounds"; "height"])
    (filled_leaf x ["paddle"; "w"]) (filled_leaf x ["paddle"; "h"])
    (filled_leaf x ["ballRadius"]).

(** ** Snapshots as the wire may spell them

    The seat keys of [players] and [score] written as the numbers 1 and 2 or
    as the strings "1" and "2". *)

Inductive KeyStyle : Type := NumericKeys | StringKeys.

Definition seat_name (style : KeyStyle) (seat : N) : PropName :=
  match style with
  | NumericKeys => PNum seat
  | StringKeys => PStr (Number_toString seat)
  end.

Definition seat_object (style : KeyStyle) (entries : list (N * JsVal)) : JsVal :=
  object_literal (map (fun e => (seat_name style (fst e), snd e)) entries).

(** A snapshot with the given [players] and [score] entries, spelled in
    [style], and any further properties. *)
Definition snapshot (style : KeyStyle) (players score : list (N * JsVal))
  (others : list (string * JsVal)) : JsVal :=
  VObj (("players", seat_object style players)
          :: ("score", seat_object style score) :: others).

(** ** Comparisons

    [===] and [Object.is] on the values at hand.  Two arrays or objects are
    the same only when they are one allocation; every array or object this
    program compares comes out of its own [JSON.parse] call, and the literals
    it compares against are primitives. *)

Definition strict_equals (a b : JsVal) : bool :=
  match a, b with
  | VUndef, VUndef => true
  | VNull, VNull => true
  | VBool x, VBool y => Bool.eqb x y
  | VNum x, VNum y => PrimFloat.eqb x y
  | VStr x, VStr y => String.eqb x y
  | _, _ => false
  end.

Definition same_value (a b : JsVal) : bool :=
  match a, b with
  | VUndef, VUndef => true
  | VNull, VNull => true
  | VBool x, VBool y => Bool.eqb x y
  | VNum x, VNum y => PrimFloat.Leibniz.eqb x y
  | VStr x, VStr y => String.eqb x y
  | _, _ => false
  end.

(** ** The component: hooks, listeners and effects *)

Module App.

(** The intent vector [{ up, down }] held by [inputRef] and [keysRef]. *)
Record Intent : Type := { up : bool; down : bool }.

Inductive Action : Type := ActUp | ActDown.

Definition intent_get (i : Intent) (a : Action) : bool :=
  match a with
  | ActUp => up i
  | ActDown => down i
  end.

(** [{ ...current, [action]: isDown }] *)
Definition intent_set (i : Intent) (a : Action) (isDown : bool) : Intent :=
  match a with
  | ActUp => {| up := isDown; down := down i |}
  | ActDown => {| up := up i; down := isDown |}
  end.

Definition keyMap : list (string * Action) :=
  [ ("KeyW", ActUp); ("KeyS", ActDown);
    ("ArrowUp", ActUp); ("ArrowDown", ActDown);
    ("KeyA", ActUp); ("KeyD", ActDown) ].

(** The own property [code] of the key map. *)
Fixpoint lookup_key (code : string) (m : list (string * Action))
  : option Action :=
  match m with
  | [] => None
  | (k, a) :: rest => if String.eqb code k then Some a else lookup_key code rest
  end.

(** [keyMap] is an object literal, so it inherits the properties of
    [Object.prototype] (ECMAScript, with its annex B): eleven methods, and
    the accessor [__proto__], which reads the prototype itself.  A method is
    named here by the name of its function. *)
Inductive Inherited : Type :=
| Method (name : string)
| Prototype.

Definition object_prototype : list (string * Inherited) :=
  [ ("constructor", Method "Object");
    ("hasOwnProperty", Method "hasOwnProperty");
    ("isPrototypeOf", Method "isPrototypeOf");
    ("propertyIsEnumerable", Method "propertyIsEnumerable");
    ("toLocaleString", Method "toLocaleString");
    ("toString", Method "toString");
    ("valueOf", Method "valueOf");
    ("__defineGetter__", Method "__defineGetter__");
    ("__defineSetter__", Method "__defineSetter__");
    ("__lookupGetter__", Method "__lookupGetter__");
    ("__lookupSetter__", Method "__lookupSetter__");
    ("__proto__", Prototype) ].

Fixpoint lookup_inherited (code : string) (m : list (string * Inherited))
  : option Inherited :=
  match m with
  | [] => None
  | (k, v) :: rest =>
      if String.eqb code k then Some v else lookup_inherited code rest
  end.

(** What [keyMap[code]] evaluates to, when it is not [undefined]. *)
Inductive KeyMapEntry : Type :=
| Direction (action : Action)
| Foreign (v : Inherited).

(** [keyMap[code]]: an own property first, then the prototype. *)
Definition keyMap_get (code : string) : option KeyMapEntry :=
  match lookup_key code keyMap with
  | Some action => Some (Direction action)
  | None =>
      match lookup_inherited code object_prototype with
      | Some v => Some (Foreign v)
      | None => None
      end
  end.

(** An inherited value used as a property key is its text (the source text
    of the function, [[object Object]] for the prototype): one key for each
    inherited value, and none of them "up" or "down". *)
Definition inherited_eqb (a b : Inherited) : bool :=
  match a, b with
  | Method x, Method y => String.eqb x y
  | Prototype, Prototype => true
  | _, _ => false
  end.

(** The properties of [keysRef.current] other than [up] and [down], in the
    order in which they were added. *)
Fixpoint other_get (v : Inherited) (others : list (Inherited * bool))
  : option bool :=
  match others with
  | [] => None
  | (k, b) :: rest => if inherited_eqb v k then Some b else other_get v rest
  end.

Fixpoint other_set (v : Inherited) (b : bool) (others : list (Inherited * bool))
  : list (Inherited * bool) :=
  match others with
  | [] => [(v, b)]
  | (k, c) :: rest =>
      if inherited_eqb v k then (k, b) :: rest
      else (k, c) :: other_set v b rest
  end.

Inductive ReadyState : Type := CONNECTING | OPEN | CLOSING | CLOSED.

(** The hook state of the component.  [wsRef] is [None] for
    [wsRef.current === null], else the ready state of the socket it holds;
    [interval] is the delay of the registered interval timer.  The object
    [keysRef.current] is held in two parts: [keysRef] has its [up] and
    [down], [keysOther] whatever other properties it has got. *)
Record Hooks : Type := {
  assignedPlayer : JsVal;
  state : JsVal;
  wsRef : option ReadyState;
  inputRef : Intent;
  keysRef : Intent;
  keysOther : list (Inherited * bool);
  interval : option float
}.

Definition set_assignedPlayer (v : JsVal) (h : Hooks) : Hooks :=
  {| assignedPlayer := v; state := state h; wsRef := wsRef h;
     inputRef := inputRef h; keysRef := keysRef h; keysOther := keysOther h;
     interval := interval h |}.

Definition set_state (v : JsVal) (h : Hooks) : Hooks :=
  {| assignedPlayer := assignedPlayer h; state := v; wsRef := wsRef h;
     inputRef := inputRef h; keysRef := keysRef h; keysOther := keysOther h;
     interval := interval h |}.

Definition set_wsRef (w : option ReadyState) (h : Hooks) : Hooks :=
  {| assignedPlayer := assignedPlayer h; state := state h; wsRef := w;
     inputRef := inputRef h; keysRef := keysRef h; keysOther := keysOther h;
     interval := interval h |}.

Definition set_inputRef (i : Intent) (h : Hooks) : Hooks :=
  {| assignedPlayer := assignedPlayer h; state := state h; wsRef := wsRef h;
     inputRef := i; keysRef := keysRef h; keysOther := keysOther h;
     interval := interval h |}.

Definition set_keysRef (i : Intent) (h : Hooks) : Hooks :=
  {| assignedPlayer := assignedPlayer h; state := state h; wsRef := wsRef h;
     inputRef := inputRef h; keysRef := i; keysOther := keysOther h;
     interval := interval h |}.

Definition set_keysOther (others : list (Inherited * bool)) (h : Hooks)
  : Hooks :=
  {| assignedPlayer := assignedPlayer h; state := state h; wsRef := wsRef h;
     inputRef := inputRef h; keysRef := keysRef h; keysOther := others;
     interval := interval h |}.

Definition set_interval (d : option float) (h : Hooks) : Hooks :=
  {| assignedPlayer := assignedPlayer h; state := state h; wsRef := wsRef h;
     inputRef := inputRef h; keysRef := keysRef h; keysOther := keysOther h;
     interval := d |}.

(** [wsRef.current && wsRef.current.readyState === WebSocket.OPEN] *)
Definition socket_open (h : Hooks) : bool :=
  match wsRef h with
  | Some OPEN => true
  | _ => false
  end.

(** The object handed to [JSON.stringify] and then to [send]. *)
Definition input_message (u d : bool) : JsVal :=
  object_literal
    [ (PStr "type", VStr "input"); (PStr "up", VBool u); (PStr "down", VBool d) ].

Definition intent_message (i : Intent) : JsVal := input_message (up i) (down i).

(** A handler returns the hooks it leaves and the messages it sent, oldest
    first. *)
Definition Run : Type := (Hooks * list JsVal)%type.

Definition updateInput (u d : bool) (h : Hooks) : Run :=
  let h' := set_inputRef {| up := u; down := d |} h in
  if socket_open h' then (h', [input_message u d]) else (h', []).

Definition resendCurrentInput (h : Hooks) : Run :=
  updateInput (up (inputRef h)) (down (inputRef h)) h.

(** The callback of [setInterval]. *)
Definition interval_callback (h : Hooks) : Run :=
  if negb (socket_open h) then (h, [])
  else (h, [input_message (up (inputRef h)) (down (inputRef h))]).

(** [current[action] === isDown] for an [action] that is an inherited
    value. *)
Definition other_is (v : Inherited) (isDown : bool)
  (others : list (Inherited * bool)) : bool :=
  match other_get v others with
  | Some b => Bool.eqb b isDown
  | None => false
  end.

(** [handleKey(event, isDown)], with [code] for [event.code].  An inherited
    [action] is truthy, so the handler goes on with it: it records the
    event under the text of [action], beside [up] and [down], which keep
    their values, and calls [updateInput] with these. *)
Definition handleKey (code : string) (isDown : bool) (h : Hooks) : Run :=
  match keyMap_get code with
  | None => (h, [])
  | Some (Direction action) =>
      let current := keysRef h in
      if Bool.eqb (intent_get current action) isDown then (h, [])
      else
        let next := intent_set current action isDown in
        updateInput (up next) (down next) (set_keysRef next h)
  | Some (Foreign v) =>
      if other_is v isDown (keysOther h) then (h, [])
      else
        updateInput (up (keysRef h)) (down (keysRef h))
          (set_keysOther (other_set v isDown (keysOther h)) h)
  end.

(** [player === null ? 'spectator' : player], the role an assign message
    gives. *)
Definition role_of_player (player : JsVal) : JsVal :=
  if strict_equals player VNull then VStr "spectator" else player.

(** The state update a listener asks for. *)
Inductive Update : Type :=
| SetAssignedPlayer (v : JsVal)
| SetState (v : JsVal)
| NoUpdate.

(** The body of the message listener; [parsed] is the completion of
    [JSON.parse(event.data)]. *)
Definition message_listener (parsed : Completion JsVal) : Completion Update :=
  data <- parsed ;;
  ty <- get data "type" ;;
  if strict_equals ty (VStr "assign") then
    player <- get data "player" ;;
    Normal (SetAssignedPlayer (role_of_player player))
  else if strict_equals ty (VStr "state") then
    st <- normaliseState data ;;
    Normal (SetState st)
  else Normal NoUpdate.

(** The last role, and the last state, that a queue of updates sets. *)
Fixpoint last_role (queue : list Update) : option JsVal :=
  match queue with
  | [] => None
  | u :: rest =>
      match last_role rest with
      | Some v => Some v
      | None => match u with SetAssignedPlayer v => Some v | _ => None end
      end
  end.

Fixpoint last_state (queue : list Update) : option JsVal :=
  match queue with
  | [] => None
  | u :: rest =>
      match last_state rest with
      | Some st => Some st
      | None => match u with SetState st => Some st | _ => None end
      end
  end.

(** React batches: a setter only queues its update, and the component
    renders later, once for all the updates queued by then.  [commit queue h]
    is that render with its effects, [h] being the hooks at that moment (the
    refs are written by the listeners at once, not queued).  Each state takes
    the last value queued for it; the effect on [assignedPlayer], which calls
    [resendCurrentInput], runs when the new role is not the same
    ([Object.is]) as the one of the render before; the effect on [state]
    draws. *)
Definition commit (queue : list Update) (h : Hooks) : Run :=
  let h1 := match last_state queue with
            | Some st => set_state st h
            | None => h
            end in
  match last_role queue with
  | Some v =>
      if same_value (assignedPlayer h1) v then (h1, [])
      else resendCurrentInput (set_assignedPlayer v h1)
  | None => (h1, [])
  end.

(** The commit of one update: React renders after the listener that queued
    it and before the next event. *)
Definition render (u : Update) (h : Hooks) : Run :=
  match u with
  | SetAssignedPlayer v =>
      if same_value (assignedPlayer h) v then (h, [])
      else resendCurrentInput (set_assignedPlayer v h)
  | SetState st => (set_state st h, [])
  | NoUpdate => (h, [])
  end.

(** A message of the protocol: its text parses to a value whose [type] is
    "assign" or "state". *)
Definition is_protocol_message (parsed : Completion JsVal) : bool :=
  match parsed with
  | Throw _ => false
  | Normal data =>
      if is_nullish data then false
      else strict_equals (prop_value data "type") (VStr "assign")
           || strict_equals (prop_value data "type") (VStr "state")
  end.

(** What a listener call leaves behind: the hooks, the messages sent, and the
    exception it raised, if any.  Both places where the message listener can
    throw come before its first state update. *)
Record Outcome : Type := {
  after : Hooks;
  sent : list JsVal;
  raised : option JsError
}.

Definition returned (r : Run) : Outcome :=
  {| after := fst r; sent := snd r; raised := None |}.

Definition on_message (parsed : Completion JsVal) (h : Hooks) : Outcome :=
  match message_listener parsed with
  | Throw e => {| after := h; sent := []; raised := Some e |}
  | Normal u => returned (render u h)
  end.

(** The close listener. *)
Definition on_close (h : Hooks) : Outcome :=
  returned (render (SetAssignedPlayer VNull) (set_wsRef None h)).

(** The socket finishes its handshake. *)
Definition on_open (h : Hooks) : Outcome :=
  match wsRef h with
  | Some CONNECTING => returned (set_wsRef (Some OPEN) h, [])
  | _ => returned (h, [])
  end.

(** The initial values of [useState] and [useRef]. *)
Definition initial : Hooks :=
  {| assignedPlayer := VNull; state := defaultState; wsRef := None;
     inputRef := {| up := false; down := false |};
     keysRef := {| up := false; down := false |};
     keysOther := [];
     interval := None |}.

(** The effects of the first render, in order: the socket is created, the
    interval timer is registered, the key listeners are attached, and the
    effect on [assignedPlayer] runs once. *)
Definition mount : Run :=
  resendCurrentInput
    (set_interval (Some INPUT_INTERVAL) (set_wsRef (Some CONNECTING) initial)).

Inductive Event : Type :=
| SocketOpens
| MessageArrives (parsed : Completion JsVal)
| SocketCloses
| TimerFires
| Key (code : string) (isDown : bool).

Definition step (e : Event) (h : Hooks) : Outcome :=
  match e with
  | SocketOpens => on_open h
  | MessageArrives parsed => on_message parsed h
  | SocketCloses => on_close h
  | TimerFires => returned (interval_callback h)
  | Key code isDown => returned (handleKey code isDown h)
  end.

(** The hooks after a sequence of events, and everything sent meanwhile. *)
Fixpoint run (events : list Event) (h : Hooks) : Run :=
  match events with
  | [] => (h, [])
  | e :: rest =>
      let o := step e h in
      let r := run rest (after o) in
      (fst r, sent o ++ snd r)
  end.

(** The hooks a mounted component can be in. *)
Definition reachable (h : Hooks) : Prop :=
  exists events, fst (run events (fst mount)) = h.

(** The two copies of the intent agree and the timer is registered. *)
Definition consistent (h : Hooks) : Prop :=
  inputRef h = keysRef h /\ interval h = Some INPUT_INTERVAL.

(** The string a template literal makes of a seat number; it is evaluated
    only where [assignedPlayer] is 1 or 2. *)
Definition seat_text (v : JsVal) : string :=
  if strict_equals v (VNum 1) then "1" else "2".

Definition roleLabel (assigned : JsVal) : string :=
  if strict_equals assigned (VNum 1) || strict_equals assigned (VNum 2) then
    "Connected as Player " ++ seat_text assigned
  else if strict_equals assigned VNull then "Connecting..."
  else "Spectator".

(** The properties of [state] the drawing effect reads, each once, in the
    order of their first use. *)
Definition draw_reads (st : JsVal) : Completion (list JsVal) :=
  bounds <- get st "bounds" ;;
  paddle <- get st "paddle" ;;
  ballRadius <- get st "ballRadius" ;;
  players <- get st "players" ;;
  ball <- get st "ball" ;;
  score <- get st "score" ;;
  width <- get bounds "width" ;;
  height <- get bounds "height" ;;
  y1 <- Normal players @. ToPropertyKey 1 @. "y" ;;
  w <- get paddle "w" ;;
  h <- get paddle "h" ;;
  y2 <- Normal players @. ToPropertyKey 2 @. "y" ;;
  bx <- get ball "x" ;;
  by_ <- get ball "y" ;;
  s1 <- get score (ToPropertyKey 1) ;;
  s2 <- get score (ToPropertyKey 2) ;;
  Normal [width; height; y1; w; h; y2; bx; by_; ballRadius; s1; s2].

End App.

(** ** Further reading of values and the cleanup of the effects *)

(** [Object.keys] of a plain object. *)
Definition own_keys (v : JsVal) : list string :=
  match v with
  | VObj fields => map fst fields
  | _ => []
  end.

Definition is_object (v : JsVal) : bool :=
  match v with
  | VObj _ => true
  | _ => false
  end.

(** The property names [normaliseState] reads from its source. *)
Definition top_level_names : list string :=
  [ "players"; "ball"; "score"; "bounds"; "paddle"; "ballRadius" ].

Module Lifecycle.

(** The cleanup of the socket effect: [ws.close(); wsRef.current = null]. *)
Definition socket_cleanup (h : App.Hooks) : App.Hooks :=
  App.set_wsRef None h.

(** The cleanup of the timer effect: [clearInterval(interval)]. *)
Definition interval_cleanup (h : App.Hooks) : App.Hooks :=
  App.set_interval None h.

(** Unmounting runs the cleanups of the effects in the order of the
    effects; removing the key listeners changes no hook. *)
Definition unmount (h : App.Hooks) : App.Hooks :=
  interval_cleanup (socket_cleanup h).

End Lifecycle.

(** ** Properties of normaliseState *)

Create HintDb js discriminated.

Lemma fill_not_nullish (v d : JsVal) :
  is_nullish d = false -> is_nullish (fill v d) = false.
Proof.
  intros Hd. unfold fill. destruct (is_nullish v) eqn:Hv; assumption.
Qed.

Lemma fill_id (v d : JsVal) : is_nullish v = false -> fill v d = v.
Proof. intros Hv. unfold fill. now rewrite Hv. Qed.

Lemma fill_object_not_nullish (v : JsVal) :
  is_nullish (fill v (object_literal [])) = false.
Proof. apply fill_not_nullish. reflexivity. Qed.

Lemma get_defined (v : JsVal) (k : string) :
  is_nullish v = false -> get v k = Normal (prop_value v k).
Proof. intros Hv. unfold get. now rewrite Hv. Qed.

#[local] Hint Resolve fill_not_nullish fill_object_not_nullish : js.

(** Reads from a value [src] that is neither [null] nor [undefined]: the
    chains of [.], [?.] and [??] that [normaliseState] is made of, each
    expressed with [path_get]. *)
Section DefinedSource.

Variable src : JsVal.
Hypothesis src_defined : is_nullish src = false.

Ltac read_src :=
  rewrite (get_defined src _ src_defined); cbn [bind];
  try rewrite src_defined.

(** [src.a] *)
Lemma read1 (a : string) : Normal src @. a = Normal (path_get src [a]).
Proof. unfold member. cbn [bind path_get]. now read_src. Qed.

(** [src.a?.b] *)
Lemma opt2_read (a b : string) :
  Normal src @. a @?. b = Normal (path_get src [a; b]).
Proof.
  unfold member, opt_member. cbn [bind path_get]. read_src.
  destruct (is_nullish (prop_value src a)) eqn:Ha.
  - reflexivity.
  - now rewrite (get_defined _ _ Ha).
Qed.

(** A plain read [src.a.b] succeeds once [src.a?.b] is known to hold a
    value: the guard in front of it has excluded the [TypeError]. *)
Lemma guarded2_read (a b : string) :
  is_nullish (path_get src [a; b]) = false ->
  Normal src @. a @. b = Normal (path_get src [a; b]).
Proof.
  intros Hv. unfold member. cbn [bind path_get] in *.
  rewrite src_defined in Hv. read_src.
  destruct (is_nullish (prop_value src a)) eqn:Ha.
  - discriminate Hv.
  - now rewrite (get_defined _ _ Ha).
Qed.

(** [src.a ?? d], with [dv] the value of the default expression [d]. *)
Lemma leaf1_pure (a : string) (d : Completion JsVal) (dv : JsVal) :
  d = Normal dv ->
  (Normal src @. a ?? d) = Normal (fill (path_get src [a]) dv).
Proof.
  intros ->. unfold coalesce. rewrite read1. cbn [bind]. unfold fill.
  now destruct (is_nullish (path_get src [a])).
Qed.

(** [src.a?.b ?? d] *)
Lemma leaf2_pure (a b : string) (d : Completion JsVal) (dv : JsVal) :
  d = Normal dv ->
  (Normal src @. a @?. b ?? d) = Normal (fill (path_get src [a; b]) dv).
Proof.
  intros ->. unfold coalesce. rewrite opt2_read. cbn [bind]. unfold fill.
  now destruct (is_nullish (path_get src [a; b])).
Qed.

(** [(src.k ?? {})] followed by a path is the path under [k]. *)
Lemma path_under_default (k : string) (rest : list string) :
  rest <> [] ->
  path_get (fill (path_get src [k]) (object_literal [])) rest =
  path_get src (k :: rest).
Proof.
  intros Hr. cbn [path_get]. rewrite src_defined. unfold fill.
  destruct (is_nullish (prop_value src k)) eqn:Hk.
  - destruct rest as [| r rest']; [contradiction |].
    cbn [path_get]. rewrite Hk. cbn.
    destruct rest'; reflexivity.
  - reflexivity.
Qed.

End DefinedSource.

Section NormaliseFacts.

Lemma resolvePlayerY_filled (players : JsVal) (key : N) :
  is_nullish players = false ->
  key = 1%N \/ key = 2%N ->
  resolvePlayerY players key =
  Normal (fill (path_get players [Number_toString key; "y"])
               (path_get defaultState ["players"; Number_toString key; "y"])).
Proof.
  intros Hp Hk. unfold resolvePlayerY, ToPropertyKey, fill.
  rewrite (opt2_read _ Hp). cbn [bind].
  destruct (is_nullish (path_get players [Number_toString key; "y"])) eqn:Hv;
    cbn [negb].
  - destruct Hk as [-> | ->]; reflexivity.
  - apply guarded2_read; assumption.
Qed.

Lemma resolveScore_filled (score : JsVal) (key : N) :
  is_nullish score = false ->
  key = 1%N \/ key = 2%N ->
  resolveScore score key =
  Normal (fill (path_get score [Number_toString key])
               (path_get defaultState ["score"; Number_toString key])).
Proof.
  intros Hs Hk. unfold resolveScore, ToPropertyKey, fill.
  rewrite (read1 _ Hs). cbn [bind].
  destruct (is_nullish (path_get score [Number_toString key])) eqn:Hv;
    cbn [negb].
  - destruct Hk as [-> | ->]; reflexivity.
  - reflexivity.
Qed.

(** On a source that is not [null] or [undefined], [normaliseState] is
    [filled_state]. *)
Lemma normalise_source (src : JsVal) :
  is_nullish src = false -> normaliseState src = Normal (filled_state src).
Proof.
  intros Hs. unfold normaliseState.
  assert (Hsrc : (Normal src ?? Normal (object_literal [])) = Normal src).
  { unfold coalesce. cbn [bind]. now rewrite Hs. }
  rewrite Hsrc. cbn [bind].
  rewrite (leaf1_pure src Hs "players" (Normal (object_literal []))
             (object_literal []) eq_refl).
  rewrite (leaf1_pure src Hs "score" (Normal (object_literal []))
             (object_literal []) eq_refl).
  cbn [bind].
  rewrite !resolvePlayerY_filled, !resolveScore_filled by auto with js.
  change (Number_toString 1) with "1". change (Number_toString 2) with "2".
  rewrite !(path_under_default src Hs) by discriminate.
  cbn [bind].
  rewrite (leaf2_pure src Hs "ball" "x" (Normal defaultState @. "ball" @. "x")
             (path_get defaultState ["ball"; "x"]) eq_refl).
  rewrite (leaf2_pure src Hs "ball" "y" (Normal defaultState @. "ball" @. "y")
             (path_get defaultState ["ball"; "y"]) eq_refl).
  rewrite (leaf2_pure src Hs "bounds" "width"
             (Normal defaultState @. "bounds" @. "width")
             (path_get defaultState ["bounds"; "width"]) eq_refl).
  rewrite (leaf2_pure src Hs "bounds" "height"
             (Normal defaultState @. "bounds" @. "height")
             (path_get defaultState ["bounds"; "height"]) eq_refl).
  rewrite (leaf2_pure src Hs "paddle" "w" (Normal defaultState @. "paddle" @. "w")
             (path_get defaultState ["paddle"; "w"]) eq_refl).
  rewrite (leaf2_pure src Hs "paddle" "h" (Normal defaultState @. "paddle" @. "h")
             (path_get defaultState ["paddle"; "h"]) eq_refl).
  rewrite (leaf1_pure src Hs "ballRadius" (Normal defaultState @. "ballRadius")
             (path_get defaultState ["ballRadius"]) eq_refl).
  reflexivity.
Qed.

Lemma normalise_filled (x : JsVal) : normaliseState x = Normal (filled_state x).
Proof.
  destruct x; try (apply normalise_source; reflexivity); reflexivity.
Qed.

Lemma default_leaf_not_nullish :
  Forall (fun p => is_nullish (path_get defaultState p) = false) leaf_paths.
Proof. repeat constructor. Qed.

Lemma filled_leaf_not_nullish (x : JsVal) (p : list string) :
  In p leaf_paths -> is_nullish (filled_leaf x p) = false.
Proof.
  intros Hin. apply fill_not_nullish.
  exact (proj1 (Forall_forall _ _) default_leaf_not_nullish p Hin).
Qed.

Lemma path_of_filled_state (x : JsVal) :
  Forall (fun p => path_get (filled_state x) p = filled_leaf x p) leaf_paths.
Proof. repeat constructor. Qed.

Lemma filled_leaf_idem (x : JsVal) (p : list string) :
  In p leaf_paths -> filled_leaf (filled_state x) p = filled_leaf x p.
Proof.
  intros Hin. unfold filled_leaf at 1.
  rewrite (proj1 (Forall_forall _ _) (path_of_filled_state x) p Hin).
  apply fill_id, filled_leaf_not_nullish, Hin.
Qed.

Lemma filled_state_idem (x : JsVal) :
  filled_state (filled_state x) = filled_state x.
Proof.
  unfold filled_state at 1.
  rewrite !filled_leaf_idem by (cbn; tauto).
  reflexivity.
Qed.

(** Both spellings of a seat key name the same property. *)
Lemma seat_object_spelling (entries : list (N * JsVal)) :
  seat_object NumericKeys entries = seat_object StringKeys entries.
Proof.
  unfold seat_object, object_literal. now rewrite !map_map.
Qed.

End NormaliseFacts.

(** C1.  Normalisation is idempotent and sends the empty snapshot to the
    default state: for every input [x], [normaliseState x] returns some
    [out], normalising [out] again returns [out], and [normaliseState {}]
    returns [defaultState]. *)
Theorem normaliseState_idempotent :
  (forall x : JsVal,
      (exists out,
          normaliseState x = Normal out /\ normaliseState out = Normal out)
      /\ (out <- normaliseState x ;; normaliseState out) = normaliseState x)
  /\ normaliseState (object_literal []) = Normal defaultState.
Proof.
  assert (Hidem : forall x,
             normaliseState (filled_state x) = Normal (filled_state x)).
  { intros x. rewrite normalise_filled. f_equal. apply filled_state_idem. }
  split.
  - intros x. split.
    + exists (filled_state x). split; [apply normalise_filled | apply Hidem].
    + rewrite normalise_filled. cbn [bind]. apply Hidem.
  - reflexivity.
Qed.

(** C2.  Normalisation is total: whatever the input ([undefined], [null], a
    primitive, an array, an object with sub-fields missing, [null] or of
    another shape) it returns without throwing, every leaf of the state
    shape holds a value other than [null] and [undefined], and the reads
    of the drawing effect on the result do not throw. *)
Theorem normaliseState_total (x : JsVal) :
  exists out,
    normaliseState x = Normal out
    /\ fully_populated out = true
    /\ exists values, App.draw_reads out = Normal values.
Proof.
  exists (filled_state x). split; [apply normalise_filled |]. split.
  - unfold fully_populated. apply forallb_forall. intros p Hin.
    rewrite (proj1 (Forall_forall _ _) (path_of_filled_state x) p Hin).
    now rewrite filled_leaf_not_nullish.
  - eexists. reflexivity.
Qed.

(** C3.  A snapshot whose [players] and [score] keys are the numbers 1 and
    2 and the snapshot that spells them as the strings "1" and "2" normalise
    to the same state; and in either spelling the seats' values are taken
    from the snapshot (here [a], [b] for the paddles and [c], [d] for the
    scores, filled from the defaults only where they are [null] or
    [undefined]). *)
Theorem normaliseState_key_spelling :
  (forall players score others,
      normaliseState (snapshot NumericKeys players score others)
      = normaliseState (snapshot StringKeys players score others))
  /\ (forall style a b c d others,
         exists out,
           normaliseState
             (snapshot style
                [ (1%N, object_literal [(PStr "y", a)]);
                  (2%N, object_literal [(PStr "y", b)]) ]
                [ (1%N, c); (2%N, d) ] others) = Normal out
           /\ path_get out ["players"; "1"; "y"] = fill a (VNum 210)
           /\ path_get out ["players"; "2"; "y"] = fill b (VNum 210)
           /\ path_get out ["score"; "1"] = fill c (VNum 0)
           /\ path_get out ["score"; "2"] = fill d (VNum 0)).
Proof.
  split.
  - intros players score others.
    unfold snapshot.
    now rewrite (seat_object_spelling players), (seat_object_spelling score).
  - intros style a b c d others. eexists. split; [apply normalise_filled |].
    destruct style; repeat split.
Qed.

(** C4.  Normalisation fills per field: for every snapshot and each of the
    eleven leaves (players 1 and 2 y, ball x and y, score 1 and 2, bounds
    width and height, paddle w and h, ballRadius), the leaf of the result
    is the snapshot's value under the same path when that value is present
    and not [null], and the value of [defaultState] under that path
    otherwise. *)
Theorem normaliseState_fills_per_field (x : JsVal) :
  exists out,
    normaliseState x = Normal out
    /\ Forall
         (fun p =>
            path_get out p =
            if is_nullish (path_get x p) then path_get defaultState p
            else path_get x p)
         leaf_paths.
Proof.
  exists (filled_state x). split; [apply normalise_filled |].
  exact (path_of_filled_state x).
Qed.

(** C8.  The default state is the specified one: bounds 800 by 500, paddle
    12 by 80, ball radius 8, both paddles at y = (height - paddle.h) / 2 =
    210, the ball at the centre of the bounds (400, 250), and score 0 for
    both seats. *)
Theorem defaultState_values :
  defaultState =
    state_of_leaves (VNum 210) (VNum 210) (VNum 400) (VNum 250)
      (VNum 0) (VNum 0) (VNum 800) (VNum 500) (VNum 12) (VNum 80) (VNum 8)
  /\ ((500 - 80) / 2 = 210)%float
  /\ (800 / 2 = 400)%float
  /\ (500 / 2 = 250)%float.
Proof. repeat split. Qed.

(** ** Properties of the component *)

Import App.

Section SenderFacts.

Lemma updateInput_after (u d : bool) (h : Hooks) :
  fst (updateInput u d h) = set_inputRef {| up := u; down := d |} h.
Proof. unfold updateInput. now destruct (socket_open _). Qed.

Lemma updateInput_sent (u d : bool) (h : Hooks) :
  snd (updateInput u d h) = if socket_open h then [input_message u d] else [].
Proof.
  unfold updateInput.
  change (socket_open (set_inputRef {| up := u; down := d |} h))
    with (socket_open h).
  now destruct (socket_open h).
Qed.

Lemma intent_eta (i : Intent) : {| up := up i; down := down i |} = i.
Proof. now destruct i. Qed.

Lemma set_inputRef_same (h : Hooks) : set_inputRef (inputRef h) h = h.
Proof. now destruct h. Qed.

(** Sending the stored intent again leaves the hooks as they are. *)
Lemma resendCurrentInput_after (h : Hooks) : fst (resendCurrentInput h) = h.
Proof.
  unfold resendCurrentInput.
  now rewrite updateInput_after, intent_eta, set_inputRef_same.
Qed.

Lemma resendCurrentInput_sent (h : Hooks) :
  snd (resendCurrentInput h) =
  if socket_open h then [intent_message (inputRef h)] else [].
Proof. unfold resendCurrentInput. apply updateInput_sent. Qed.

(** Rendering writes [assignedPlayer] and [state] only. *)
Lemma render_frame (u : Update) (h : Hooks) :
  wsRef (fst (render u h)) = wsRef h
  /\ inputRef (fst (render u h)) = inputRef h
  /\ keysRef (fst (render u h)) = keysRef h
  /\ interval (fst (render u h)) = interval h.
Proof.
  destruct u as [v | st |]; cbn [render].
  - destruct (same_value _ _); [now repeat split |].
    rewrite resendCurrentInput_after. now repeat split.
  - now repeat split.
  - now repeat split.
Qed.

Lemma render_sent (u : Update) (h : Hooks) :
  snd (render u h) =
  match u with
  | SetAssignedPlayer v =>
      if same_value (assignedPlayer h) v then []
      else if socket_open h then [intent_message (inputRef h)] else []
  | _ => []
  end.
Proof.
  destruct u as [v | st |]; cbn [render]; try reflexivity.
  destruct (same_value _ _); [reflexivity |].
  exact (resendCurrentInput_sent (set_assignedPlayer v h)).
Qed.

Lemma on_message_frame (parsed : Completion JsVal) (h : Hooks) :
  let o := on_message parsed h in
  wsRef (after o) = wsRef h /\ inputRef (after o) = inputRef h
  /\ keysRef (after o) = keysRef h /\ interval (after o) = interval h.
Proof.
  unfold on_message. destruct (message_listener parsed) as [u |]; cbn.
  - apply render_frame.
  - now repeat split.
Qed.

Lemma on_message_sent (parsed : Completion JsVal) (h : Hooks) :
  sent (on_message parsed h) = []
  \/ (socket_open h = true
      /\ sent (on_message parsed h) = [intent_message (inputRef h)]).
Proof.
  unfold on_message. destruct (message_listener parsed) as [u |]; cbn;
    [| now left].
  rewrite render_sent. destruct u as [v | |]; try now left.
  destruct (same_value _ _); [now left |].
  destruct (socket_open h); auto.
Qed.

End SenderFacts.

Section EventFacts.

Lemma set_keysRef_same (h : Hooks) : set_keysRef (keysRef h) h = h.
Proof. now destruct h. Qed.

Lemma set_keysOther_same (h : Hooks) : set_keysOther (keysOther h) h = h.
Proof. now destruct h. Qed.

(** [handleKey] on a code that is an own property of the key map. *)
Lemma handleKey_mapped (code : string) (isDown : bool) (h : Hooks)
  (action : Action) :
  lookup_key code keyMap = Some action ->
  handleKey code isDown h
  = if Bool.eqb (intent_get (keysRef h) action) isDown then (h, [])
    else updateInput (up (intent_set (keysRef h) action isDown))
           (down (intent_set (keysRef h) action isDown))
           (set_keysRef (intent_set (keysRef h) action isDown) h).
Proof. intros Hk. unfold handleKey, keyMap_get. now rewrite Hk. Qed.

(** [handleKey] on a code that names an inherited property. *)
Lemma handleKey_foreign (code : string) (isDown : bool) (h : Hooks)
  (v : Inherited) :
  keyMap_get code = Some (Foreign v) ->
  handleKey code isDown h
  = if other_is v isDown (keysOther h) then (h, [])
    else updateInput (up (keysRef h)) (down (keysRef h))
           (set_keysOther (other_set v isDown (keysOther h)) h).
Proof. intros Hk. unfold handleKey. now rewrite Hk. Qed.

(** Whatever the code, a key event either changes nothing and sends
    nothing, or it stores an intent [next] in both copies, perhaps with
    other properties of [keysRef.current], and sends [next] if the socket
    is open. *)
Lemma handleKey_effect (code : string) (isDown : bool) (h : Hooks) :
  handleKey code isDown h = (h, [])
  \/ exists next others,
       fst (handleKey code isDown h)
       = set_inputRef next (set_keysOther others (set_keysRef next h))
       /\ snd (handleKey code isDown h)
          = if socket_open h then [intent_message next] else [].
Proof.
  unfold handleKey. destruct (keyMap_get code) as [[action | v] |].
  - destruct (Bool.eqb (intent_get (keysRef h) action) isDown);
      [now left |].
    right. exists (intent_set (keysRef h) action isDown), (keysOther h).
    cbn zeta. rewrite updateInput_after, updateInput_sent, intent_eta.
    split; reflexivity.
  - destruct (other_is v isDown (keysOther h)); [now left |].
    right. exists (keysRef h), (other_set v isDown (keysOther h)).
    rewrite updateInput_after, updateInput_sent, intent_eta.
    split; reflexivity.
  - now left.
Qed.

(** The cases of [handleKey] on a code that names no inherited property. *)
Lemma handleKey_cases (code : string) (isDown : bool) (h : Hooks) :
  (forall v, keyMap_get code <> Some (Foreign v)) ->
  (handleKey code isDown h = (h, [])
   /\ (lookup_key code keyMap = None
       \/ exists action, lookup_key code keyMap = Some action
                         /\ intent_get (keysRef h) action = isDown))
  \/ (exists action,
         lookup_key code keyMap = Some action
         /\ intent_get (keysRef h) action <> isDown
         /\ let next := intent_set (keysRef h) action isDown in
            fst (handleKey code isDown h)
            = set_inputRef next (set_keysRef next h)
            /\ snd (handleKey code isDown h)
               = if socket_open h then [intent_message next] else []).
Proof.
  intros Hown. unfold handleKey. unfold keyMap_get in *.
  destruct (lookup_key code keyMap) as [action |].
  - destruct (Bool.eqb (intent_get (keysRef h) action) isDown) eqn:Heq.
    + left. split; [reflexivity |]. right. exists action.
      split; [reflexivity |]. now apply Bool.eqb_prop.
    + right. exists action. split; [reflexivity |]. split.
      * intros Hsame. rewrite Hsame, Bool.eqb_reflx in Heq. discriminate.
      * cbn zeta. rewrite updateInput_after, updateInput_sent, intent_eta.
        split; reflexivity.
  - destruct (lookup_inherited code object_prototype) as [v |].
    + now contradiction (Hown v).
    + left. split; [reflexivity | now left].
Qed.

Lemma mapped_is_not_foreign (code : string) (action : Action) :
  lookup_key code keyMap = Some action ->
  forall v, keyMap_get code <> Some (Foreign v).
Proof. intros Hk v. unfold keyMap_get. rewrite Hk. discriminate. Qed.

Lemma key_code_is_not_foreign (code : string) :
  lookup_inherited code object_prototype = None ->
  forall v, keyMap_get code <> Some (Foreign v).
Proof.
  intros Hnone v. unfold keyMap_get. rewrite Hnone.
  destruct (lookup_key code keyMap); discriminate.
Qed.

Lemma intent_set_changes (i : Intent) (action : Action) (isDown : bool) :
  intent_get i action <> isDown -> intent_set i action isDown <> i.
Proof.
  intros Hne Heq. apply Hne. rewrite <- Heq at 1.
  now destruct action.
Qed.

Lemma step_sent_current (e : Event) (h : Hooks) :
  Forall (fun m => m = intent_message (inputRef (after (step e h))))
         (sent (step e h)).
Proof.
  destruct e as [| parsed | | | code isDown]; cbn [step].
  - unfold on_open. destruct (wsRef h) as [[] |]; constructor.
  - destruct (on_message_frame parsed h) as (_ & Hi & _).
    rewrite Hi.
    destruct (on_message_sent parsed h) as [-> | [_ ->]]; repeat constructor.
  - unfold on_close, returned. cbn [sent after].
    rewrite render_sent. cbn.
    destruct (same_value _ _); constructor.
  - unfold interval_callback.
    destruct (socket_open h); cbn; repeat constructor.
  - unfold returned. cbn [sent after].
    destruct (handleKey_effect code isDown h)
      as [-> | (next & others & Hf & Hs)]; [constructor |].
    rewrite Hf, Hs. destruct (socket_open h); repeat constructor.
Qed.

Lemma step_consistent (e : Event) (h : Hooks) :
  consistent h -> consistent (after (step e h)).
Proof.
  intros [Hi Ht]. destruct e as [| parsed | | | code isDown]; cbn [step].
  - unfold on_open. destruct (wsRef h) as [[] |]; now split.
  - destruct (on_message_frame parsed h) as (_ & Hi' & Hk' & Ht').
    unfold consistent. now rewrite Hi', Hk', Ht'.
  - unfold on_close, returned. cbn [after].
    destruct (render_frame (SetAssignedPlayer VNull) (set_wsRef None h))
      as (_ & Hi' & Hk' & Ht').
    unfold consistent. now rewrite Hi', Hk', Ht'.
  - unfold interval_callback. destruct (socket_open h); now split.
  - unfold returned. cbn [after].
    destruct (handleKey_effect code isDown h)
      as [-> | (next & others & Hf & _)]; [now split |].
    rewrite Hf. now split.
Qed.

Lemma run_consistent (events : list Event) (h : Hooks) :
  consistent h -> consistent (fst (run events h)).
Proof.
  revert h. induction events as [| e rest IH]; intros h Hc; cbn.
  - exact Hc.
  - apply IH, step_consistent, Hc.
Qed.

Lemma mount_consistent : consistent (fst mount).
Proof. now split. Qed.

Lemma reachable_consistent (h : Hooks) : reachable h -> consistent h.
Proof.
  intros [events <-]. apply run_consistent, mount_consistent.
Qed.

End EventFacts.

(** ** The input sender *)

(** C5, as the code has it.  In every state a mounted component can reach:
    the interval timer is registered with a delay of 1000/30 ms; every
    message any event sends is the object [{type: "input", up, down}] with
    both directions of the intent stored at that moment, never a part of
    it; the timer sends that object when the socket is open and nothing
    otherwise; and a key event that changes the intent sends the new intent
    at once when the socket is open and nothing otherwise. *)
Theorem input_sender_full_intent (h : Hooks) :
  reachable h ->
  interval h = Some (1000 / 30)%float
  /\ (forall e,
         Forall
           (fun m =>
              m = VObj [ ("type", VStr "input");
                         ("up", VBool (up (keysRef (after (step e h)))));
                         ("down", VBool (down (keysRef (after (step e h))))) ])
           (sent (step e h)))
  /\ sent (step TimerFires h)
     = (if socket_open h
        then [ VObj [ ("type", VStr "input");
                      ("up", VBool (up (keysRef h)));
                      ("down", VBool (down (keysRef h))) ] ]
        else [])
  /\ (forall code isDown,
         let o := step (Key code isDown) h in
         keysRef (after o) <> keysRef h ->
         sent o
         = if socket_open h
           then [ VObj [ ("type", VStr "input");
                         ("up", VBool (up (keysRef (after o))));
                         ("down", VBool (down (keysRef (after o)))) ] ]
           else []).
Proof.
  intros Hr. pose proof (reachable_consistent h Hr) as [Hi Ht].
  split; [exact Ht |]. split; [| split].
  - intros e.
    destruct (step_consistent e h (conj Hi Ht)) as [Hi' _].
    eapply Forall_impl; [| exact (step_sent_current e h)].
    intros m ->. rewrite Hi'. reflexivity.
  - cbn. unfold interval_callback. rewrite <- Hi.
    now destruct (socket_open h).
  - intros code isDown. cbn. unfold returned. cbn [after sent].
    destruct (handleKey_effect code isDown h)
      as [-> | (next & others & Hf & Hs)].
    + intros Hne. now contradiction Hne.
    + intros _. rewrite Hf, Hs. now destruct (socket_open h).
Qed.

(** The socket of a freshly mounted component opens: a reachable state with
    an open socket, where the statement above applies. *)
Lemma input_sender_full_intent_witness :
  reachable (fst (run [SocketOpens] (fst mount)))
  /\ sent (step TimerFires (fst (run [SocketOpens] (fst mount))))
     = [ VObj [ ("type", VStr "input"); ("up", VBool false);
                ("down", VBool false) ] ].
Proof.
  split.
  - exists [SocketOpens]. reflexivity.
  - exact (proj1 (proj2 (proj2
      (input_sender_full_intent (fst (run [SocketOpens] (fst mount)))
         (ex_intro _ [SocketOpens] eq_refl))))).
Defined.

(** C5 as the claim words it fails: right after mounting, while the socket
    is still connecting, pressing W changes the intent and nothing is
    sent. *)
Lemma key_before_open_not_sent :
  keysRef (after (step (Key "KeyW" true) (fst mount))) <> keysRef (fst mount)
  /\ sent (step (Key "KeyW" true) (fst mount)) = [].
Proof. split; [discriminate | reflexivity]. Qed.

(** ** The message listener *)

(** C6, as the code has it.  A message that is not of the protocol leaves
    the rendered state, the assigned role and every other hook as they were
    and sends nothing.  The listener returns normally when the text parsed
    to a value other than [null]; when the text is not JSON the
    [SyntaxError] of [JSON.parse] leaves the listener, and when it parsed to
    [null] the read of its [type] throws a [TypeError]. *)
Theorem foreign_message_ignored (parsed : Completion JsVal) (h : Hooks) :
  is_protocol_message parsed = false ->
  after (on_message parsed h) = h
  /\ sent (on_message parsed h) = []
  /\ raised (on_message parsed h)
     = match parsed with
       | Throw e => Some e
       | Normal data => if is_nullish data then Some TypeError else None
       end.
Proof.
  unfold is_protocol_message, on_message, message_listener.
  destruct parsed as [data | e]; cbn [bind]; [| now repeat split].
  unfold get. destruct (is_nullish data); cbn [bind]; [now repeat split |].
  intros Hty. apply Bool.orb_false_iff in Hty. destruct Hty as [-> ->].
  now repeat split.
Qed.


(** A message of an unknown type, received by a freshly mounted component. *)
Lemma foreign_message_ignored_witness :
  is_protocol_message
    (Normal (object_literal [(PStr "type", VStr "ping")])) = false
  /\ after (on_message (Normal (object_literal [(PStr "type", VStr "ping")]))
              (fst mount)) = fst mount
  /\ raised (on_message (Normal (object_literal [(PStr "type", VStr "ping")]))
               (fst mount)) = None.
Proof.
  split; [reflexivity |].
  pose proof (foreign_message_ignored
                (Normal (object_literal [(PStr "type", VStr "ping")]))
                (fst mount) eq_refl) as (Ha & _ & Hr).
  split; [exact Ha | exact Hr].
Defined.

(** C6 as the claim words it fails: neither the text [null] nor a text that
    is not JSON is of the protocol, and on each the listener raises an
    error. *)
Lemma malformed_message_raises :
  is_protocol_message (Normal VNull) = false
  /\ raised (on_message (Normal VNull) (fst mount)) = Some TypeError
  /\ is_protocol_message (Throw SyntaxError) = false
  /\ raised (on_message (Throw SyntaxError) (fst mount)) = Some SyntaxError.
Proof. repeat split. Qed.

(** ** Rendering in batches *)

Section CommitFacts.

Lemma last_role_of_batch (before later : list Update) (v : JsVal) :
  last_role later = None ->
  last_role (before ++ SetAssignedPlayer v :: later) = Some v.
Proof.
  intros Hlater. induction before as [| u rest IH].
  - change ([] ++ SetAssignedPlayer v :: later)
      with (SetAssignedPlayer v :: later).
    cbn [last_role]. now rewrite Hlater.
  - change ((u :: rest) ++ SetAssignedPlayer v :: later)
      with (u :: (rest ++ SetAssignedPlayer v :: later)).
    cbn [last_role]. now rewrite IH.
Qed.

(** A commit writes [assignedPlayer] and [state] only. *)
Lemma commit_frame (queue : list Update) (h : Hooks) :
  wsRef (fst (commit queue h)) = wsRef h
  /\ inputRef (fst (commit queue h)) = inputRef h
  /\ keysRef (fst (commit queue h)) = keysRef h
  /\ interval (fst (commit queue h)) = interval h.
Proof.
  unfold commit.
  destruct (last_role queue) as [v |], (last_state queue) as [st |];
    try (now repeat split);
    (destruct (same_value _ v); [now repeat split |]);
    rewrite resendCurrentInput_after; now repeat split.
Qed.

Lemma commit_role (queue : list Update) (h : Hooks) (v : JsVal) :
  last_role queue = Some v ->
  same_value (assignedPlayer h) v = false ->
  assignedPlayer (fst (commit queue h)) = v.
Proof.
  intros Hrole Hnew. unfold commit. rewrite Hrole.
  destruct (last_state queue) as [st |]; cbn [set_state assignedPlayer];
    rewrite Hnew, resendCurrentInput_after; reflexivity.
Qed.

Lemma commit_sent (queue : list Update) (h : Hooks) :
  snd (commit queue h) =
  match last_role queue with
  | Some v =>
      if same_value (assignedPlayer h) v then []
      else if socket_open h then [intent_message (inputRef h)] else []
  | None => []
  end.
Proof.
  unfold commit.
  destruct (last_role queue) as [v |], (last_state queue) as [st |];
    try reflexivity; cbn [set_state assignedPlayer];
    (destruct (same_value _ v); [reflexivity |]);
    rewrite resendCurrentInput_sent; reflexivity.
Qed.

(** [render] is the commit of a batch of one. *)
Lemma commit_single (u : Update) (h : Hooks) : commit [u] h = render u h.
Proof. now destruct u. Qed.

End CommitFacts.

(** C10, as the code has it.  An assign message queues the role it gives
    ([null] is the spectator, 1 and 2 are the seats).  When the render that
    follows changes the role to it (it is the last role queued, whatever
    was queued before it, and not the role of the render before), the role
    is stored, the stored intent is left as it was, and the effect sends
    that intent, the object [{type: "input", up, down}], once if the socket
    is open at that moment and not at all otherwise.  Before any role is
    assigned every assign message changes the role. *)
Theorem role_change_resends (before later : list Update) (data : JsVal)
  (h : Hooks) :
  is_nullish data = false ->
  strict_equals (prop_value data "type") (VStr "assign") = true ->
  last_role later = None ->
  same_value (assignedPlayer h) (role_of_player (prop_value data "player"))
  = false ->
  exists u,
    message_listener (Normal data) = Normal u
    /\ assignedPlayer (fst (commit (before ++ u :: later) h))
       = role_of_player (prop_value data "player")
    /\ inputRef (fst (commit (before ++ u :: later) h)) = inputRef h
    /\ keysRef (fst (commit (before ++ u :: later) h)) = keysRef h
    /\ snd (commit (before ++ u :: later) h)
       = (if socket_open h
          then [ VObj [ ("type", VStr "input");
                        ("up", VBool (up (inputRef h)));
                        ("down", VBool (down (inputRef h))) ] ]
          else [])
    /\ role_of_player VNull = VStr "spectator"
    /\ role_of_player (VNum 1) = VNum 1
    /\ role_of_player (VNum 2) = VNum 2
    /\ (forall player, same_value VNull (role_of_player player) = false).
Proof.
  intros Hdata Hty Hlater Hrole.
  exists (SetAssignedPlayer (role_of_player (prop_value data "player"))).
  pose proof (last_role_of_batch before later
                (role_of_player (prop_value data "player")) Hlater) as Hlast.
  destruct (commit_frame
              (before
                 ++ SetAssignedPlayer (role_of_player (prop_value data "player"))
                 :: later) h) as (_ & Hi & Hk & _).
  split.
  { unfold message_listener. cbn [bind]. unfold get.
    rewrite Hdata. cbn [bind]. now rewrite Hty. }
  split; [now apply commit_role |].
  split; [exact Hi |]. split; [exact Hk |].
  split.
  { rewrite commit_sent, Hlast, Hrole. now destruct (socket_open h). }
  repeat split. intros player. now destruct player.
Qed.

(** A connection is told first that it watches and then, before the
    component has rendered, that it has seat 1: one message is sent. *)
Lemma role_change_resends_witness :
  socket_open (fst (run [SocketOpens] (fst mount))) = true
  /\ same_value (assignedPlayer (fst (run [SocketOpens] (fst mount)))) (VNum 1)
     = false
  /\ snd (commit [SetAssignedPlayer (VStr "spectator");
                  SetAssignedPlayer (VNum 1)]
            (fst (run [SocketOpens] (fst mount))))
     = [ VObj [ ("type", VStr "input"); ("up", VBool false);
                ("down", VBool false) ] ].
Proof.
  split; [reflexivity |]. split; [reflexivity |].
  destruct (role_change_resends
              [SetAssignedPlayer (VStr "spectator")] []
              (object_literal
                 [(PStr "type", VStr "assign"); (PStr "player", VNum 1)])
              (fst (run [SocketOpens] (fst mount)))
              eq_refl eq_refl eq_refl eq_refl)
    as (u & Hu & _ & _ & _ & Hsent & _).
  injection Hu as <-. exact Hsent.
Defined.

(** C10 as the claim words it fails: an assign message changes the role
    and nothing is sent, when the socket is not open as the effect runs,
    be it still connecting or closed in the meantime. *)
Lemma role_change_not_resent :
  message_listener
    (Normal (object_literal
               [(PStr "type", VStr "assign"); (PStr "player", VNum 1)]))
  = Normal (SetAssignedPlayer (VNum 1))
  /\ assignedPlayer (fst mount) = VNull
  /\ assignedPlayer (fst (commit [SetAssignedPlayer (VNum 1)] (fst mount)))
     = VNum 1
  /\ snd (commit [SetAssignedPlayer (VNum 1)] (fst mount)) = []
  /\ assignedPlayer
       (fst (commit [SetAssignedPlayer (VNum 1)]
               (after (on_close (fst (run [SocketOpens] (fst mount)))))))
     = VNum 1
  /\ snd (commit [SetAssignedPlayer (VNum 1)]
            (after (on_close (fst (run [SocketOpens] (fst mount))))))
     = [].
Proof. repeat split. Qed.

(** ** The keyboard handler *)

(** C9.  A key event whose code is a key code (it names none of the
    properties the key map inherits) and is not in the key map, or whose
    direction already has the pressed or released value of the event,
    leaves every hook as it was, the stored intent included, and sends
    nothing; and a key event of a key code that sends anything has changed
    the intent. *)
Theorem idle_key_event_silent (code : string) (isDown : bool) (h : Hooks) :
  lookup_inherited code object_prototype = None ->
  (lookup_key code keyMap = None
   \/ (exists action, lookup_key code keyMap = Some action
                      /\ intent_get (keysRef h) action = isDown) ->
   handleKey code isDown h = (h, []))
  /\ (snd (handleKey code isDown h) <> [] ->
      keysRef (fst (handleKey code isDown h)) <> keysRef h
      /\ inputRef (fst (handleKey code isDown h))
         = keysRef (fst (handleKey code isDown h))).
Proof.
  intros Hcode.
  destruct (handleKey_cases code isDown h (key_code_is_not_foreign code Hcode))
    as [[Hidle _] | (action & Hk & Hne & Hf & Hs)].
  - split; [intros _; exact Hidle |]. rewrite Hidle. intros Hsent.
    now contradiction Hsent.
  - split.
    + intros [Hnone | (action' & Hk' & Hsame)].
      * rewrite Hnone in Hk. discriminate.
      * rewrite Hk' in Hk. injection Hk as ->. contradiction.
    + intros _. rewrite Hf. cbn. split; [| reflexivity].
      now apply intent_set_changes.
Qed.

(** Key auto-repeat: W is held down and a second keydown of W arrives; an
    unmapped key; and a key that changes the intent. *)
Lemma idle_key_event_silent_witness :
  handleKey "KeyW" true (fst (handleKey "KeyW" true (fst mount)))
  = (fst (handleKey "KeyW" true (fst mount)), [])
  /\ handleKey "KeyQ" true (fst mount) = (fst mount, [])
  /\ keysRef (fst (handleKey "KeyW" true (fst (run [SocketOpens] (fst mount)))))
     <> keysRef (fst (run [SocketOpens] (fst mount))).
Proof.
  split; [| split].
  - apply (proj1 (idle_key_event_silent "KeyW" true
                    (fst (handleKey "KeyW" true (fst mount))) eq_refl)).
    right. exists ActUp. split; reflexivity.
  - apply (proj1 (idle_key_event_silent "KeyQ" true (fst mount) eq_refl)).
    left. reflexivity.
  - apply (proj2 (idle_key_event_silent "KeyW" true
                    (fst (run [SocketOpens] (fst mount))) eq_refl)).
    discriminate.
Defined.

(** Outside the key codes: a code that names an inherited property of the
    key map is taken for a mapped one.  The first event with it records it
    in [keysRef.current], leaves [up] and [down] as they are and sends them
    if the socket is open. *)
Lemma inherited_code_is_handled (code : string) (isDown : bool) (h : Hooks)
  (v : Inherited) :
  keyMap_get code = Some (Foreign v) ->
  other_get v (keysOther h) = None ->
  keysRef (fst (handleKey code isDown h)) = keysRef h
  /\ keysOther (fst (handleKey code isDown h))
     = other_set v isDown (keysOther h)
  /\ snd (handleKey code isDown h)
     = if socket_open h
       then [ VObj [ ("type", VStr "input");
                     ("up", VBool (up (keysRef h)));
                     ("down", VBool (down (keysRef h))) ] ]
       else [].
Proof.
  intros Hk Hfresh. rewrite (handleKey_foreign code isDown h v Hk).
  unfold other_is. rewrite Hfresh.
  rewrite updateInput_after, updateInput_sent.
  split; [reflexivity | split; reflexivity].
Qed.

(** ** The role label *)

Lemma same_as_null (v : JsVal) : same_value v VNull = true -> v = VNull.
Proof. destruct v; cbn; congruence. Qed.

(** C7, as the code has it.  The label is "Connecting..." while no role is
    assigned, which is the case before the first assign message and again
    after the socket has closed; the spectator role is labelled "Spectator";
    and no role other than [null] gets the connecting label. *)
Theorem role_label_connecting :
  roleLabel (assignedPlayer (fst mount)) = "Connecting..."
  /\ (forall h, roleLabel (assignedPlayer (after (on_close h))) = "Connecting...")
  /\ roleLabel (VStr "spectator") = "Spectator"
  /\ (forall role,
         String.eqb (roleLabel role) "Connecting..." = strict_equals role VNull).
Proof.
  split; [reflexivity |]. split; [| split; [reflexivity |]].
  - intros h. unfold on_close, returned. cbn [after render].
    destruct (same_value _ VNull) eqn:Hs.
    + apply same_as_null in Hs. cbn in Hs |- *. now rewrite Hs.
    + now rewrite resendCurrentInput_after.
  - intros role. unfold roleLabel, seat_text.
    destruct role as [| | b | f | s | l | l]; try reflexivity.
    cbn [strict_equals].
    destruct (PrimFloat.eqb f 1); [reflexivity |].
    destruct (PrimFloat.eqb f 2); reflexivity.
Qed.

(** C7 as the claim words it fails: a connection told that it has no seat
    holds the spectator role, and its label is "Spectator", not the
    connecting indicator. *)
Lemma spectator_label_not_connecting :
  assignedPlayer
    (after (on_message
              (Normal (object_literal
                         [(PStr "type", VStr "assign"); (PStr "player", VNull)]))
              (fst (run [SocketOpens] (fst mount)))))
  = VStr "spectator"
  /\ roleLabel (VStr "spectator") = "Spectator"
  /\ roleLabel (VStr "spectator") <> "Connecting...".
Proof. repeat split. discriminate. Qed.

(** * Further properties *)

(** ** Inputs that are not objects *)

Section NonObjectInput.

(** A name that starts with a letter is the index of no element. *)
Lemma name_is_no_index (k : string) (n : N) :
  In k top_level_names -> String.eqb k (Number_toString n) = false.
Proof.
  intros Hin. unfold Number_toString.
  destruct (N.to_uint n); cbn in Hin;
    repeat (destruct Hin as [<- | Hin]; [reflexivity |]); contradiction.
Qed.

Lemma elem_by_name (k : string) (elems : list JsVal) (i : N) :
  In k top_level_names -> elem_by_key k i elems = VUndef.
Proof.
  intros Hin. revert i.
  induction elems as [| v rest IH]; intros i; cbn [elem_by_key].
  - reflexivity.
  - now rewrite (name_is_no_index k i Hin).
Qed.

Lemma char_by_name (k : string) (s : string) (i : N) :
  In k top_level_names -> char_by_key k i s = VUndef.
Proof.
  intros Hin. revert i.
  induction s as [| c rest IH]; intros i; cbn [char_by_key].
  - reflexivity.
  - now rewrite (name_is_no_index k i Hin).
Qed.

Lemma name_is_not_length (k : string) :
  In k top_level_names -> String.eqb k "length" = false.
Proof.
  intros Hin. cbn in Hin.
  repeat (destruct Hin as [<- | Hin]; [reflexivity |]); contradiction.
Qed.

(** None of the names [normaliseState] reads is a property of a value that
    is not an object. *)
Lemma non_object_has_no_name (x : JsVal) (k : string) :
  is_object x = false -> In k top_level_names -> prop_value x k = VUndef.
Proof.
  intros Hx Hin. destruct x; try reflexivity; cbn [prop_value].
  - rewrite (name_is_not_length k Hin). now apply char_by_name.
  - rewrite (name_is_not_length k Hin). now apply elem_by_name.
  - discriminate Hx.
Qed.

Lemma path_from_undefined (rest : list string) : path_get VUndef rest = VUndef.
Proof. now destruct rest. Qed.

Lemma non_object_leaf (x : JsVal) (p : list string) :
  is_object x = false -> In p leaf_paths -> path_get x p = VUndef.
Proof.
  intros Hx Hin.
  assert (Hhead : exists k rest, p = k :: rest /\ In k top_level_names).
  { cbn in Hin.
    repeat (destruct Hin as [<- | Hin];
            [eexists; eexists; split; [reflexivity | cbn; tauto] |]).
    contradiction. }
  destruct Hhead as (k & rest & -> & Hk). cbn [path_get].
  destruct (is_nullish x); [reflexivity |].
  rewrite (non_object_has_no_name x k Hx Hk). apply path_from_undefined.
Qed.

End NonObjectInput.

(** X1.  Whatever is not a plain object (a boolean, a number, a string, an
    array, [null], [undefined]) normalises to the default state. *)
Theorem normaliseState_non_object (x : JsVal) :
  is_object x = false -> normaliseState x = Normal defaultState.
Proof.
  intros Hx. rewrite normalise_filled. f_equal.
  unfold filled_state, filled_leaf.
  rewrite !(non_object_leaf x) by (assumption || (cbn; tauto)).
  reflexivity.
Qed.

Lemma normaliseState_non_object_witness :
  normaliseState (VStr "players") = Normal defaultState
  /\ normaliseState (VArr [VNum 1; VStr "ball"]) = Normal defaultState.
Proof.
  split.
  - exact (normaliseState_non_object (VStr "players") eq_refl).
  - exact (normaliseState_non_object (VArr [VNum 1; VStr "ball"]) eq_refl).
Defined.

(** ** The shape of a normalised state *)

(** X2.  The result of normalising has the six properties of the state
    shape and no other, and so have its parts: whatever else the snapshot
    carries (its [type] tag, further seats) is dropped. *)
Theorem normaliseState_keys (x : JsVal) :
  exists out,
    normaliseState x = Normal out
    /\ own_keys out = top_level_names
    /\ own_keys (path_get out ["players"]) = ["1"; "2"]
    /\ own_keys (path_get out ["players"; "1"]) = ["y"]
    /\ own_keys (path_get out ["players"; "2"]) = ["y"]
    /\ own_keys (path_get out ["ball"]) = ["x"; "y"]
    /\ own_keys (path_get out ["score"]) = ["1"; "2"]
    /\ own_keys (path_get out ["bounds"]) = ["width"; "height"]
    /\ own_keys (path_get out ["paddle"]) = ["w"; "h"].
Proof.
  exists (filled_state x). split; [apply normalise_filled |].
  repeat split.
Qed.

(** X3.  The result depends on the eleven leaves only, and on each only up
    to filling: two snapshots whose leaves agree once [null] and missing
    ones are replaced by the defaults normalise to the same state. *)
Theorem normaliseState_reads_leaves_only (x y : JsVal) :
  map (filled_leaf x) leaf_paths = map (filled_leaf y) leaf_paths ->
  normaliseState x = normaliseState y.
Proof.
  intros Hleaves. rewrite !normalise_filled. f_equal.
  cbn [map leaf_paths] in Hleaves.
  injection Hleaves as H1 H2 H3 H4 H5 H6 H7 H8 H9 H10 H11.
  unfold filled_state. congruence.
Qed.

(** A state message with a [null] ball and a bare object whose ball has a
    [null] x. *)
Lemma normaliseState_reads_leaves_only_witness :
  normaliseState
    (object_literal [(PStr "type", VStr "state"); (PStr "ball", VNull)])
  = normaliseState
      (object_literal [(PStr "ball", object_literal [(PStr "x", VNull)])]).
Proof.
  exact (normaliseState_reads_leaves_only
           (object_literal [(PStr "type", VStr "state"); (PStr "ball", VNull)])
           (object_literal [(PStr "ball", object_literal [(PStr "x", VNull)])])
           eq_refl).
Defined.

(** ** State and assign messages *)

Section ListenerFacts.

Lemma state_type_is_not_assign (ty : JsVal) :
  strict_equals ty (VStr "state") = true ->
  strict_equals ty (VStr "assign") = false.
Proof.
  destruct ty as [| | b | f | s | l | l]; cbn; try discriminate.
  intros Hs. apply String.eqb_eq in Hs. now subst s.
Qed.

Lemma render_shown (u : Update) (h : Hooks) :
  state (fst (render u h))
  = match u with SetState st => st | _ => state h end.
Proof.
  destruct u as [v | st |]; cbn [render]; try reflexivity.
  destruct (same_value _ _); [reflexivity |].
  now rewrite resendCurrentInput_after.
Qed.

Lemma role_of_player_assigned (player : JsVal) :
  strict_equals (role_of_player player) VNull = false.
Proof. now destruct player. Qed.



Lemma assign_message_update (data : JsVal) :
  is_nullish data = false ->
  strict_equals (prop_value data "type") (VStr "assign") = true ->
  message_listener (Normal data)
  = Normal (SetAssignedPlayer (role_of_player (prop_value data "player"))).
Proof.
  intros Hdata Hty. unfold message_listener. cbn [bind]. unfold get.
  rewrite Hdata. cbn [bind]. now rewrite Hty.
Qed.

Lemma state_message_update (data : JsVal) :
  is_nullish data = false ->
  strict_equals (prop_value data "type") (VStr "state") = true ->
  message_listener (Normal data) = Normal (SetState (filled_state data)).
Proof.
  intros Hdata Hty. unfold message_listener. cbn [bind]. unfold get.
  rewrite Hdata. cbn [bind].
  rewrite (state_type_is_not_assign _ Hty), Hty, normalise_filled.
  reflexivity.
Qed.

(** The listener asks for a state update only with a normalised state. *)
Lemma message_listener_normalises (parsed : Completion JsVal) (st : JsVal) :
  message_listener parsed = Normal (SetState st) ->
  exists data, st = filled_state data.
Proof.
  unfold message_listener. destruct parsed as [data | e]; [| discriminate].
  cbn [bind]. unfold get. destruct (is_nullish data); [discriminate |].
  cbn [bind]. destruct (strict_equals _ (VStr "assign")); [discriminate |].
  destruct (strict_equals _ (VStr "state")); [| discriminate].
  rewrite normalise_filled. cbn [bind]. intros [= <-]. now exists data.
Qed.

Lemma filled_state_populated (x : JsVal) :
  fully_populated (filled_state x) = true.
Proof.
  unfold fully_populated. apply forallb_forall. intros p Hin.
  rewrite (proj1 (Forall_forall _ _) (path_of_filled_state x) p Hin).
  now rewrite filled_leaf_not_nullish.
Qed.

Lemma filled_state_normal (x : JsVal) :
  normaliseState (filled_state x) = Normal (filled_state x).
Proof. rewrite normalise_filled. f_equal. apply filled_state_idem. Qed.

(** An event leaves the shown state as it was or stores a normalised one. *)
Lemma step_shown (e : Event) (h : Hooks) :
  state (after (step e h)) = state h
  \/ exists data, state (after (step e h)) = filled_state data.
Proof.
  destruct e as [| parsed | | | code isDown]; cbn [step].
  - left. unfold on_open. now destruct (wsRef h) as [[] |].
  - unfold on_message.
    destruct (message_listener parsed) as [u |] eqn:Hl; [| now left].
    cbn [returned after]. rewrite render_shown.
    destruct u as [v | st |]; try now left.
    right. now apply message_listener_normalises in Hl.
  - left. unfold on_close, returned. cbn [after]. now rewrite render_shown.
  - left. unfold interval_callback. now destruct (socket_open h).
  - left. unfold returned. cbn [after].
    destruct (handleKey_effect code isDown h)
      as [-> | (next & others & Hf & _)]; [reflexivity |].
    now rewrite Hf.
Qed.

Lemma run_shown (events : list Event) (h : Hooks) :
  (exists data, state h = filled_state data) ->
  exists data, state (fst (run events h)) = filled_state data.
Proof.
  revert h. induction events as [| e rest IH]; intros h Hh; cbn.
  - exact Hh.
  - apply IH. destruct (step_shown e h) as [-> | Hnew]; assumption.
Qed.

End ListenerFacts.

(** X4.  A state message is never rejected: whatever its other fields hold,
    the listener returns without raising, sends nothing, and replaces the
    shown state by the normalised message, which is fully populated; the
    state shown before plays no part, so a field missing from the message
    falls back to its default and not to its last value.  Role, socket,
    intent and timer are left as they were. *)
Theorem state_message_replaces_state (data : JsVal) (h : Hooks) :
  is_nullish data = false ->
  strict_equals (prop_value data "type") (VStr "state") = true ->
  exists out,
    normaliseState data = Normal out
    /\ fully_populated out = true
    /\ on_message (Normal data) h
       = {| after := set_state out h; sent := []; raised := None |}.
Proof.
  intros Hdata Hty. exists (filled_state data).
  split; [apply normalise_filled |]. split; [apply filled_state_populated |].
  unfold on_message. now rewrite (state_message_update data Hdata Hty).
Qed.

(** A state message that carries the ball only, after one that moved the
    first paddle: the paddle is back at its default. *)
Lemma state_message_replaces_state_witness :
  path_get
    (state
       (after
          (on_message
             (Normal (object_literal
                        [ (PStr "type", VStr "state");
                          (PStr "ball", object_literal [(PStr "x", VNum 7)]) ]))
             (set_state
                (filled_state
                   (snapshot StringKeys
                      [(1%N, object_literal [(PStr "y", VNum 5)])] [] []))
                (fst mount)))))
    ["players"; "1"; "y"]
  = VNum 210.
Proof.
  destruct (state_message_replaces_state
              (object_literal
                 [ (PStr "type", VStr "state");
                   (PStr "ball", object_literal [(PStr "x", VNum 7)]) ])
              (set_state
                 (filled_state
                    (snapshot StringKeys
                       [(1%N, object_literal [(PStr "y", VNum 5)])] [] []))
                 (fst mount))
              eq_refl eq_refl) as (out & Hout & _ & Hmsg).
  rewrite Hmsg. cbn [after set_state state].
  injection Hout as <-. reflexivity.
Defined.

(** X5.  In every state a mounted component can reach, the shown state is
    a normalised one: normalising it again returns it, every leaf holds a
    value, and the reads of the drawing effect do not throw. *)
Theorem shown_state_always_drawable (h : Hooks) :
  reachable h ->
  normaliseState (state h) = Normal (state h)
  /\ fully_populated (state h) = true
  /\ exists values, draw_reads (state h) = Normal values.
Proof.
  intros [events <-].
  destruct (run_shown events (fst mount)) as [data ->].
  { now exists VUndef. }
  split; [apply filled_state_normal |].
  split; [apply filled_state_populated |].
  eexists. reflexivity.
Qed.

Lemma shown_state_always_drawable_witness :
  fully_populated
    (state
       (fst (run [ SocketOpens;
                   MessageArrives
                     (Normal (object_literal
                                [ (PStr "type", VStr "state");
                                  (PStr "players", VStr "gone") ])) ]
               (fst mount))))
  = true.
Proof.
  exact (proj1 (proj2
    (shown_state_always_drawable _
       (ex_intro _
          [ SocketOpens;
            MessageArrives
              (Normal (object_literal
                         [ (PStr "type", VStr "state");
                           (PStr "players", VStr "gone") ])) ]
          eq_refl)))).
Defined.



(** X7.  An assign message that gives the role already held changes
    nothing and sends nothing: the intent is resent on a change of role
    only. *)
Theorem repeated_assign_is_silent (data : JsVal) (h : Hooks) :
  is_nullish data = false ->
  strict_equals (prop_value data "type") (VStr "assign") = true ->
  same_value (assignedPlayer h) (role_of_player (prop_value data "player"))
  = true ->
  on_message (Normal data) h = {| after := h; sent := []; raised := None |}.
Proof.
  intros Hdata Hty Hsame. unfold on_message.
  rewrite (assign_message_update data Hdata Hty). cbn [render].
  now rewrite Hsame.
Qed.

(** The assign message for seat 2, twice, on an open socket. *)
Lemma repeated_assign_is_silent_witness :
  sent
    (on_message
       (Normal (object_literal
                  [(PStr "type", VStr "assign"); (PStr "player", VNum 2)]))
       (fst (run [ SocketOpens;
                   MessageArrives
                     (Normal (object_literal
                                [ (PStr "type", VStr "assign");
                                  (PStr "player", VNum 2) ])) ]
               (fst mount))))
  = [].
Proof.
  rewrite (repeated_assign_is_silent
             (object_literal
                [(PStr "type", VStr "assign"); (PStr "player", VNum 2)])
             (fst (run [ SocketOpens;
                         MessageArrives
                           (Normal (object_literal
                                      [ (PStr "type", VStr "assign");
                                        (PStr "player", VNum 2) ])) ]
                     (fst mount)))
             eq_refl eq_refl eq_refl).
  reflexivity.
Defined.

(** ** Closing *)

(** X8.  When the socket closes, the reference to it is dropped and the
    role is cleared; the last state shown, the stored intent and the timer
    stay as they are, and nothing is sent. *)
Theorem close_keeps_last_state (h : Hooks) :
  wsRef (after (on_close h)) = None
  /\ assignedPlayer (after (on_close h)) = VNull
  /\ state (after (on_close h)) = state h
  /\ inputRef (after (on_close h)) = inputRef h
  /\ keysRef (after (on_close h)) = keysRef h
  /\ interval (after (on_close h)) = interval h
  /\ sent (on_close h) = []
  /\ raised (on_close h) = None.
Proof.
  unfold on_close, returned. cbn [after sent raised].
  destruct (render_frame (SetAssignedPlayer VNull) (set_wsRef None h))
    as (Hw & Hi & Hk & Ht).
  rewrite Hw, Hi, Hk, Ht, render_shown, render_sent.
  repeat split.
  - cbn [render]. destruct (same_value _ VNull) eqn:Hs.
    + now apply same_as_null in Hs.
    + now rewrite resendCurrentInput_after.
  - now destruct (same_value _ _).
Qed.

(** ** What a run of events sends *)

Section TraceFacts.

Lemma step_silent (e : Event) (h : Hooks) :
  socket_open h = false -> sent (step e h) = [].
Proof.
  intros Hclosed. destruct e as [| parsed | | | code isDown]; cbn [step].
  - unfold on_open. now destruct (wsRef h) as [[] |].
  - destruct (on_message_sent parsed h) as [-> | [Hopen _]]; [reflexivity |].
    rewrite Hclosed in Hopen. discriminate.
  - unfold on_close, returned. cbn [sent]. rewrite render_sent.
    now destruct (same_value _ _).
  - unfold interval_callback. now rewrite Hclosed.
  - unfold returned. cbn [sent].
    destruct (handleKey_effect code isDown h)
      as [-> | (next & others & _ & Hs)]; [reflexivity |].
    now rewrite Hs, Hclosed.
Qed.

(** What an event does to the reference to the socket. *)
Lemma step_socket (e : Event) (h : Hooks) :
  wsRef (after (step e h))
  = match e with
    | SocketOpens =>
        match wsRef h with Some CONNECTING => Some OPEN | w => w end
    | SocketCloses => None
    | _ => wsRef h
    end.
Proof.
  destruct e as [| parsed | | | code isDown]; cbn [step].
  - unfold on_open. destruct (wsRef h) as [[] |] eqn:Hw; cbn; congruence.
  - now destruct (on_message_frame parsed h) as (-> & _).
  - unfold on_close, returned. cbn [after].
    now destruct (render_frame (SetAssignedPlayer VNull) (set_wsRef None h))
      as (-> & _).
  - unfold interval_callback. now destruct (socket_open h).
  - unfold returned. cbn [after].
    destruct (handleKey_effect code isDown h)
      as [-> | (next & others & Hf & _)]; [reflexivity |].
    now rewrite Hf.
Qed.

Lemma step_interval (e : Event) (h : Hooks) :
  interval (after (step e h)) = interval h.
Proof.
  destruct e as [| parsed | | | code isDown]; cbn [step].
  - unfold on_open. now destruct (wsRef h) as [[] |].
  - now destruct (on_message_frame parsed h) as (_ & _ & _ & ->).
  - unfold on_close, returned. cbn [after].
    now destruct (render_frame (SetAssignedPlayer VNull) (set_wsRef None h))
      as (_ & _ & _ & ->).
  - unfold interval_callback. now destruct (socket_open h).
  - unfold returned. cbn [after].
    destruct (handleKey_effect code isDown h)
      as [-> | (next & others & Hf & _)]; [reflexivity |].
    now rewrite Hf.
Qed.

(** Without a reference to a socket the component stays silent, and no
    event gives it a socket again. *)
Lemma run_without_socket (events : list Event) (h : Hooks) :
  wsRef h = None ->
  snd (run events h) = []
  /\ wsRef (fst (run events h)) = None
  /\ interval (fst (run events h)) = interval h.
Proof.
  revert h. induction events as [| e rest IH]; intros h Hnone; cbn.
  - now repeat split.
  - assert (Hnext : wsRef (after (step e h)) = None).
    { rewrite step_socket, Hnone. now destruct e. }
    destruct (IH _ Hnext) as (-> & -> & ->).
    rewrite step_silent, step_interval; [now repeat split |].
    unfold socket_open. now rewrite Hnone.
Qed.

Lemma step_at_most_one (e : Event) (h : Hooks) :
  sent (step e h) = []
  \/ sent (step e h) = [intent_message (inputRef (after (step e h)))].
Proof.
  pose proof (step_sent_current e h) as Hall.
  destruct e as [| parsed | | | code isDown]; cbn [step] in *.
  - left. unfold on_open. now destruct (wsRef h) as [[] |].
  - destruct (on_message_frame parsed h) as (_ & Hi & _). rewrite Hi.
    destruct (on_message_sent parsed h) as [-> | [_ ->]]; auto.
  - left. unfold on_close, returned. cbn [sent]. rewrite render_sent. cbn.
    now destruct (same_value _ _).
  - unfold interval_callback. destruct (socket_open h); cbn; auto.
  - unfold returned. cbn [sent after].
    destruct (handleKey_effect code isDown h)
      as [-> | (next & others & Hf & Hs)]; [now left |].
    rewrite Hf, Hs. destruct (socket_open h); auto.
Qed.

End TraceFacts.

(** X9.  There is no reconnection: after the socket has closed, whatever
    happens next (keys, timer ticks, late messages), nothing is sent and
    the component never holds a socket again. *)
Theorem closed_socket_stays_silent (h : Hooks) (events : list Event) :
  snd (run events (after (on_close h))) = []
  /\ wsRef (fst (run events (after (on_close h)))) = None.
Proof.
  assert (Hnone : wsRef (after (on_close h)) = None).
  { exact (step_socket SocketCloses h). }
  destruct (run_without_socket events _ Hnone) as (Hs & Hw & _).
  now split.
Qed.

(** X10.  After unmounting, the timer is cleared and stays so, and a
    listener that still runs (the close listener of the socket being
    closed, a late message) sends nothing. *)
Theorem unmount_clears (h : Hooks) (events : list Event) :
  interval (fst (run events (Lifecycle.unmount h))) = None
  /\ wsRef (fst (run events (Lifecycle.unmount h))) = None
  /\ snd (run events (Lifecycle.unmount h)) = [].
Proof.
  destruct (run_without_socket events (Lifecycle.unmount h) eq_refl)
    as (Hs & Hw & Ht).
  rewrite Hs, Hw, Ht. now repeat split.
Qed.

Lemma run_silent_until_open (events : list Event) (h : Hooks) :
  socket_open h = false ->
  ~ In SocketOpens events ->
  snd (run events h) = [].
Proof.
  revert h. induction events as [| e rest IH]; intros h Hclosed Hno; cbn.
  - reflexivity.
  - rewrite (step_silent e h Hclosed). cbn [app]. apply IH.
    + unfold socket_open. rewrite step_socket.
      destruct e; try (unfold socket_open in Hclosed; exact Hclosed).
      * exfalso. apply Hno. now left.
      * reflexivity.
    + intros Hin. apply Hno. now right.
Qed.

(** X11.  Nothing is sent before the socket has opened: a run of events
    without the opening of the socket, from a state whose socket is not
    open, sends no message, whatever keys are pressed meanwhile. *)
Theorem silent_until_open (events : list Event) (h : Hooks) :
  socket_open h = false ->
  ~ In SocketOpens events ->
  snd (run events h) = [].
Proof. apply run_silent_until_open. Qed.

(** Keys pressed and a timer tick while the socket of a fresh component is
    still connecting. *)
Lemma silent_until_open_witness :
  snd (run [Key "KeyW" true; TimerFires; Key "KeyS" true; Key "KeyW" false]
         (fst mount)) = [].
Proof.
  apply silent_until_open; [reflexivity |].
  cbn. intros [H | [H | [H | [H | []]]]]; discriminate H.
Defined.

(** X12.  An event sends at most one message, so a run of events sends no
    more messages than it has events: a key event that changes the intent
    does not also trigger a second send. *)
Theorem one_message_per_event (events : list Event) (h : Hooks) :
  (forall e, List.length (sent (step e h)) <= 1)
  /\ List.length (snd (run events h)) <= List.length events.
Proof.
  assert (Hone : forall e h', List.length (sent (step e h')) <= 1).
  { intros e h'. destruct (step_at_most_one e h') as [-> | ->]; cbn; lia. }
  split; [intros e; apply Hone |].
  revert h. induction events as [| e rest IH]; intros h; cbn [run snd List.length].
  - lia.
  - rewrite length_app. specialize (IH (after (step e h))).
    specialize (Hone e h). lia.
Qed.

(** X13.  Everything the component ever sends, over any run of events
    from any state, is an object with the three properties [type], [up]
    and [down], in this order, where [type] is "input" and [up] and [down]
    are booleans. *)
Theorem only_input_messages (events : list Event) (h : Hooks) :
  Forall
    (fun m =>
       exists u d : bool,
         m = VObj [("type", VStr "input"); ("up", VBool u); ("down", VBool d)])
    (snd (run events h)).
Proof.
  revert h. induction events as [| e rest IH]; intros h; cbn [run snd].
  - constructor.
  - apply Forall_app. split; [| apply IH].
    destruct (step_at_most_one e h) as [-> | ->]; repeat constructor.
    exists (up (inputRef (after (step e h)))),
           (down (inputRef (after (step e h)))).
    reflexivity.
Qed.

(** ** Keys *)

Section KeyFacts.

Lemma intent_get_set (i : Intent) (a : Action) (b : bool) :
  intent_get (intent_set i a b) a = b.
Proof. now destruct a. Qed.

Lemma intent_get_set_other (i : Intent) (a a' : Action) (b : bool) :
  a' <> a -> intent_get (intent_set i a b) a' = intent_get i a'.
Proof. destruct a, a'; intros Hne; try reflexivity; now contradiction Hne. Qed.

Lemma intent_set_same (i : Intent) (a : Action) :
  intent_set i a (intent_get i a) = i.
Proof. now destruct i, a. Qed.

Lemma intent_set_twice (i : Intent) (a : Action) (b c : bool) :
  intent_set (intent_set i a b) a c = intent_set i a c.
Proof. now destruct a. Qed.

Lemma inherited_eqb_refl (v : Inherited) : inherited_eqb v v = true.
Proof. destruct v; cbn; [apply String.eqb_refl | reflexivity]. Qed.

Lemma other_get_set (v : Inherited) (b : bool)
  (others : list (Inherited * bool)) :
  other_get v (other_set v b others) = Some b.
Proof.
  induction others as [| [k c] rest IH]; cbn [other_set other_get].
  - now rewrite inherited_eqb_refl.
  - destruct (inherited_eqb v k) eqn:Hk; cbn [other_get]; now rewrite Hk.
Qed.

Lemma keyMap_get_direction (code : string) (action : Action) :
  keyMap_get code = Some (Direction action) ->
  lookup_key code keyMap = Some action.
Proof.
  unfold keyMap_get. destruct (lookup_key code keyMap) as [a |].
  - now intros [= ->].
  - destruct (lookup_inherited code object_prototype); discriminate.
Qed.

(** The intent of the keys after a key event of a mapped code. *)
Lemma handleKey_keys (code : string) (isDown : bool) (h : Hooks)
  (action : Action) :
  lookup_key code keyMap = Some action ->
  keysRef (fst (handleKey code isDown h))
  = intent_set (keysRef h) action isDown.
Proof.
  intros Hk.
  destruct (handleKey_cases code isDown h (mapped_is_not_foreign code action Hk))
    as [[Hidle [Hnone | (a & Ha & Hsame)]] | (a & Ha & _ & Hf & _)].
  - rewrite Hnone in Hk. discriminate.
  - rewrite Ha in Hk. injection Hk as ->.
    rewrite Hidle, <- Hsame. cbn [fst]. symmetry. apply intent_set_same.
  - rewrite Ha in Hk. injection Hk as ->. now rewrite Hf.
Qed.

(** A key event writes the two copies of the intent and nothing else. *)
Lemma handleKey_frame (code : string) (isDown : bool) (h : Hooks) :
  assignedPlayer (fst (handleKey code isDown h)) = assignedPlayer h
  /\ state (fst (handleKey code isDown h)) = state h
  /\ wsRef (fst (handleKey code isDown h)) = wsRef h
  /\ interval (fst (handleKey code isDown h)) = interval h.
Proof.
  destruct (handleKey_effect code isDown h)
    as [-> | (next & others & Hf & _)]; [now repeat split |].
  rewrite Hf. now repeat split.
Qed.

End KeyFacts.

(** X14.  After a key event of a mapped code the direction of the key has
    the pressed or released value of the event and the other direction is
    as before; role, shown state, socket and timer are not touched. *)
Theorem key_event_sets_direction (code : string) (isDown : bool) (h : Hooks)
  (action : Action) :
  lookup_key code keyMap = Some action ->
  intent_get (keysRef (fst (handleKey code isDown h))) action = isDown
  /\ (forall other, other <> action ->
        intent_get (keysRef (fst (handleKey code isDown h))) other
        = intent_get (keysRef h) other)
  /\ assignedPlayer (fst (handleKey code isDown h)) = assignedPlayer h
  /\ state (fst (handleKey code isDown h)) = state h
  /\ wsRef (fst (handleKey code isDown h)) = wsRef h
  /\ interval (fst (handleKey code isDown h)) = interval h.
Proof.
  intros Hk. rewrite (handleKey_keys code isDown h action Hk).
  split; [apply intent_get_set |].
  split; [intros other Hne; now apply intent_get_set_other |].
  apply handleKey_frame.
Qed.

Lemma key_event_sets_direction_witness :
  keysRef (fst (handleKey "ArrowDown" true (fst mount)))
  = {| up := false; down := true |}.
Proof.
  pose proof (key_event_sets_direction "ArrowDown" true (fst mount) ActDown
                eq_refl) as (Hd & Ho & _).
  specialize (Ho ActUp ltac:(discriminate)).
  cbn [intent_get] in Hd, Ho.
  destruct (keysRef (fst (handleKey "ArrowDown" true (fst mount))))
    as [u d]. cbn in Hd, Ho. now subst.
Defined.

(** X15.  Keys of one direction are not told apart: with one of them held
    down, the release of another of the same direction clears the
    direction. *)
Theorem alias_release_clears (first second : string) (h : Hooks)
  (action : Action) :
  lookup_key first keyMap = Some action ->
  lookup_key second keyMap = Some action ->
  intent_get
    (keysRef (fst (handleKey second false (fst (handleKey first true h)))))
    action
  = false.
Proof.
  intros Hfirst Hsecond.
  rewrite (handleKey_keys second false _ action Hsecond).
  apply intent_get_set.
Qed.

(** W is held down and A, which was never pressed, is released: the
    paddle no longer goes up. *)
Lemma alias_release_clears_witness :
  up (keysRef (fst (handleKey "KeyA" false
                      (fst (handleKey "KeyW" true (fst mount))))))
  = false.
Proof.
  exact (alias_release_clears "KeyW" "KeyA" (fst mount) ActUp eq_refl eq_refl).
Defined.

(** X16.  Handling the same key event twice is handling it once: the
    second one changes nothing and sends nothing (key auto-repeat floods
    neither the intent nor the socket). *)
Theorem key_event_idempotent (code : string) (isDown : bool) (h : Hooks) :
  handleKey code isDown (fst (handleKey code isDown h))
  = (fst (handleKey code isDown h), []).
Proof.
  destruct (keyMap_get code) as [[action | v] |] eqn:Hget.
  - apply keyMap_get_direction in Hget.
    destruct (handleKey_cases code isDown (fst (handleKey code isDown h))
                (mapped_is_not_foreign code action Hget))
      as [[Hidle _] | (a & Hk & Hne & _)]; [exact Hidle |].
    exfalso. apply Hne.
    rewrite (handleKey_keys code isDown h a Hk). apply intent_get_set.
  - rewrite (handleKey_foreign code isDown _ v Hget).
    assert (Hheld : other_is v isDown
                      (keysOther (fst (handleKey code isDown h))) = true).
    { rewrite (handleKey_foreign code isDown h v Hget).
      destruct (other_is v isDown (keysOther h)) eqn:Hfirst;
        [exact Hfirst |].
      rewrite updateInput_after. cbn [set_inputRef set_keysOther keysOther].
      unfold other_is. rewrite other_get_set. apply Bool.eqb_reflx. }
    now rewrite Hheld.
  - unfold handleKey. now rewrite Hget.
Qed.

(** X17.  Pressing and then releasing a key whose direction was not
    pressed brings both copies of the intent back to what the keys held
    before. *)
Theorem press_release_restores (code : string) (h : Hooks) (action : Action) :
  lookup_key code keyMap = Some action ->
  intent_get (keysRef h) action = false ->
  keysRef (fst (handleKey code false (fst (handleKey code true h))))
  = keysRef h
  /\ inputRef (fst (handleKey code false (fst (handleKey code true h))))
     = keysRef h.
Proof.
  intros Hk Hfree.
  assert (Hkeys :
            keysRef (fst (handleKey code false (fst (handleKey code true h))))
            = keysRef h).
  { rewrite !(handleKey_keys code _ _ action Hk), intent_set_twice.
    rewrite <- Hfree at 1. apply intent_set_same. }
  split; [exact Hkeys |].
  destruct (handleKey_cases code false (fst (handleKey code true h))
              (mapped_is_not_foreign code action Hk))
    as [[_ [Hnone | (a & Ha & Hsame)]] | (a & Ha & _ & Hf & _)].
  - rewrite Hnone in Hk. discriminate.
  - rewrite Ha in Hk. injection Hk as ->.
    rewrite (handleKey_keys code true h action Ha), intent_get_set in Hsame.
    discriminate Hsame.
  - rewrite <- Hkeys, Hf. reflexivity.
Qed.

Lemma press_release_restores_witness :
  keysRef (fst (handleKey "KeyS" false (fst (handleKey "KeyS" true (fst mount)))))
  = keysRef (fst mount).
Proof.
  exact (proj1 (press_release_restores "KeyS" (fst mount) ActDown
                  eq_refl eq_refl)).
Defined.

(** ** What an event leaves alone *)

(** X18.  A timer tick changes no hook, and a message changes neither
    copy of the intent, nor the socket reference, nor the timer: what the
    server sends never alters what the client reports as its input, and
    the periodic send has no side effect on the component. *)
Theorem events_frame (h : Hooks) :
  after (step TimerFires h) = h
  /\ (forall parsed,
         inputRef (after (step (MessageArrives parsed) h)) = inputRef h
         /\ keysRef (after (step (MessageArrives parsed) h)) = keysRef h
         /\ wsRef (after (step (MessageArrives parsed) h)) = wsRef h
         /\ interval (after (step (MessageArrives parsed) h)) = interval h).
Proof.
  split.
  - cbn. unfold interval_callback. now destruct (socket_open h).
  - intros parsed. cbn [step].
    destruct (on_message_frame parsed h) as (Hw & Hi & Hk & Ht).
    now repeat split.
Qed.

(** ** Drawing *)

(** X19.  The drawing effect has no guard of its own: on a state that
    lacks one of [bounds], [paddle], [players], [ball] or [score] its reads
    throw a [TypeError].  It relies on the stored state being normalised. *)
Theorem draw_needs_normalised_state (st : JsVal) :
  is_nullish st = false ->
  existsb (fun k => is_nullish (prop_value st k))
          ["bounds"; "paddle"; "players"; "ball"; "score"] = true ->
  draw_reads st = Throw TypeError.
Proof.
  intros Hst Hmissing. unfold draw_reads, member, get. rewrite Hst.
  cbn [bind existsb] in *.
  destruct (is_nullish (prop_value st "bounds")); [reflexivity |].
  destruct (is_nullish (prop_value st "paddle")) eqn:Hpaddle.
  - cbn [bind].
    destruct (is_nullish (prop_value st "players")); [reflexivity |].
    cbn [bind].
    destruct (is_nullish (prop_value (prop_value st "players")
                            (ToPropertyKey 1))); reflexivity.
  - destruct (is_nullish (prop_value st "players")); [reflexivity |].
    cbn [bind].
    destruct (is_nullish (prop_value (prop_value st "players")
                            (ToPropertyKey 1))); [reflexivity |].
    cbn [bind].
    destruct (is_nullish (prop_value (prop_value st "players")
                            (ToPropertyKey 2))); [reflexivity |].
    cbn [bind].
    destruct (is_nullish (prop_value st "ball")); [reflexivity |].
    cbn [bind].
    destruct (is_nullish (prop_value st "score")); [reflexivity |].
    discriminate Hmissing.
Qed.

(** A state message as it arrives, with no [bounds], drawn without being
    normalised. *)
Lemma draw_needs_normalised_state_witness :
  draw_reads
    (object_literal
       [ (PStr "type", VStr "state");
         (PStr "ball", object_literal [(PStr "x", VNum 1); (PStr "y", VNum 2)]) ])
  = Throw TypeError.
Proof.
  exact (draw_needs_normalised_state
           (object_literal
              [ (PStr "type", VStr "state");
                (PStr "ball",
                  object_literal [(PStr "x", VNum 1); (PStr "y", VNum 2)]) ])
           eq_refl eq_refl).
Defined.

(** ** From mounting to the first message *)

Section FirstMessage.

Lemma run_app (first second : list Event) (h : Hooks) :
  run (first ++ second) h
  = (fst (run second (fst (run first h))),
     snd (run first h) ++ snd (run second (fst (run first h)))).
Proof.
  revert h. induction first as [| e rest IH]; intros h.
  - change ([] ++ second) with second. cbn [run fst snd app].
    now destruct (run second h).
  - change ((e :: rest) ++ second) with (e :: (rest ++ second)).
    cbn [run]. rewrite IH. cbn [fst snd]. now rewrite app_assoc.
Qed.

(** Key events alone leave role and socket as they are. *)
Lemma run_keys_frame (keys : list Event) (h : Hooks) :
  Forall (fun e => exists code isDown, e = Key code isDown) keys ->
  assignedPlayer (fst (run keys h)) = assignedPlayer h
  /\ wsRef (fst (run keys h)) = wsRef h.
Proof.
  intros Hkeys. revert h.
  induction Hkeys as [| e rest (code & isDown & ->) _ IH]; intros h;
    cbn [run fst].
  - now split.
  - destruct (IH (after (step (Key code isDown) h))) as (-> & ->).
    cbn [step returned after].
    destruct (handleKey_frame code isDown h) as (Hr & _ & Hw & _).
    now split.
Qed.

Lemma keys_do_not_open (keys : list Event) :
  Forall (fun e => exists code isDown, e = Key code isDown) keys ->
  ~ In SocketOpens keys.
Proof.
  intros Hkeys Hin.
  destruct (proj1 (Forall_forall _ _) Hkeys _ Hin) as (code & isDown & Heq).
  discriminate Heq.
Qed.

Lemma unassigned_differs (role : JsVal) :
  strict_equals role VNull = false -> same_value VNull role = false.
Proof. now destruct role. Qed.

End FirstMessage.

(** X20.  Keys pressed while the socket is still connecting are not lost:
    nothing is sent until the socket has opened, and the first assign
    message then makes the component send, as its first message, the
    whole intent the keys hold at that moment. *)
Theorem first_message_is_held_intent (keys : list Event) (data : JsVal) :
  Forall (fun e => exists code isDown, e = Key code isDown) keys ->
  is_nullish data = false ->
  strict_equals (prop_value data "type") (VStr "assign") = true ->
  snd (run (keys ++ [SocketOpens; MessageArrives (Normal data)]) (fst mount))
  = [ VObj [ ("type", VStr "input");
             ("up", VBool (up (keysRef (fst (run keys (fst mount))))));
             ("down", VBool (down (keysRef (fst (run keys (fst mount)))))) ] ].
Proof.
  intros Hkeys Hdata Hty. rewrite run_app. cbn [snd].
  rewrite (run_silent_until_open keys (fst mount) eq_refl
             (keys_do_not_open keys Hkeys)).
  destruct (run_keys_frame keys (fst mount) Hkeys) as (Hrole & Hws).
  destruct (run_consistent keys (fst mount) mount_consistent) as (Hsync & _).
  remember (fst (run keys (fst mount))) as h eqn:Hh. clear Hh.
  cbn [app run step fst snd]. unfold on_open. rewrite Hws.
  change (wsRef (fst mount)) with (Some CONNECTING). cbv iota.
  cbn [returned after sent fst snd]. unfold on_message.
  rewrite (assign_message_update data Hdata Hty).
  cbn [returned after sent]. rewrite render_sent.
  cbn [set_wsRef assignedPlayer inputRef]. rewrite Hrole.
  change (assignedPlayer (fst mount)) with VNull.
  rewrite (unassigned_differs _ (role_of_player_assigned _)).
  cbn. now rewrite Hsync.
Qed.

(** W is pressed and S is pressed and released before the socket opens;
    the connection then gets seat 1. *)
Lemma first_message_is_held_intent_witness :
  snd (run ([Key "KeyW" true; Key "KeyS" true; Key "KeyS" false]
              ++ [ SocketOpens;
                   MessageArrives
                     (Normal (object_literal
                                [ (PStr "type", VStr "assign");
                                  (PStr "player", VNum 1) ])) ])
         (fst mount))
  = [ VObj [("type", VStr "input"); ("up", VBool true); ("down", VBool false)] ].
Proof.
  rewrite (first_message_is_held_intent
             [Key "KeyW" true; Key "KeyS" true; Key "KeyS" false]
             (object_literal
                [(PStr "type", VStr "assign"); (PStr "player", VNum 1)])).
  - reflexivity.
  - repeat constructor; eexists; eexists; reflexivity.
  - reflexivity.
  - reflexivity.
Defined.
